(** * MiningChallenge: an encrypted contribution ledger

    A shallow embedding of [contracts/src/MiningChallenge.sol] and the
    properties of its state transitions.

    The contract keeps, per player, a handle to an encrypted 32-bit total,
    a registry of the players in first-contribution order and a handle to
    the encrypted global total.  The homomorphic operations and the access
    control list live in the FHE library the contract imports; they are
    modelled here by a backend that maps every handle to the cleartext it
    encrypts and records the calls made to it.

    Conventions of the model:
    - [uint256] values are integers of [Z]; the one addition the contract
      performs on them is checked, as in Solidity 0.8, and panics on
      overflow;
    - an [euint32] or [ebool] is a handle, a number.  The library derives
      the handle of a result from the operation and its operands, so the
      same call gives the same handle again; the model numbers the results
      in call order instead.  What is proved below is what a handle
      decrypts to, who is granted it and which calls are made: no theorem
      states that the results of two calls are different handles;
    - the backend of the model serves every operation it is asked for.
      The library may refuse one, which aborts the transaction, and it
      does so in [calculateMyRank] once the registry is long enough; what
      is proved of [calculateMyRank] is therefore proved of the calls that
      return, with the returned handle given as a hypothesis;
    - a call runs in a state-and-error monad; a call that reverts leaves
      the state of before the call ([transact]);
    - the backend records the grants it is asked for but does not refuse
      an operation for want of one: which permissions the library checks
      is not part of the contract;
    - the two events of the contract carry no state and are left out. *)

From Stdlib Require Import ZArith Lia.
From stdpp Require Import gmap list.

Open Scope Z_scope.

(** ** Machine integers *)

Abbreviation address := N (only parsing).
Abbreviation handle := N (only parsing).

Definition two32 : Z := 2 ^ 32.
Definition two256 : Z := 2 ^ 256.

(** Cleartext domain of [euint32]: arithmetic wraps around modulo 2^32. *)
Definition wrap32 (z : Z) : Z := z mod two32.

(** ** The FHE backend *)

Module FHE.

(** One entry per call the contract makes to the library, in call order. *)
Inductive Event : Type :=
| EvFromExternal (res : handle)
| EvTrivial (pt : Z) (res : handle)
| EvAdd (lhs rhs res : handle)
| EvGt (lhs rhs res : handle)
| EvSelect (cond ifTrue ifFalse res : handle)
| EvAllowThis (h : handle)
| EvAllow (h : handle) (account : address).

(** [plain] gives the cleartext under every handle produced so far (an
    [ebool] is kept as 0 or 1), [next] is the next unused handle, [acl]
    is the persistent access-control relation and [trace] the calls made
    so far.  Handle 0 is the uninitialised sentinel and is never
    allocated. *)
Record Backend : Type := {
  plain : gmap N Z;
  next : handle;
  acl : gset (N * N);
  trace : list Event
}.

Definition genesis : Backend :=
  {| plain := ∅; next := 1%N; acl := ∅; trace := [] |}.

(** What the decryption oracle answers for a handle. *)
Definition decrypt (b : Backend) (h : handle) : option Z := plain b !! h.

(** Cleartext read by an operation; an unknown handle counts as 0. *)
Definition value (b : Backend) (h : handle) : Z := default 0 (plain b !! h).

(** Modelled from the spec: an operation of the backend answers with a
    handle to its result (spec 4.1).  The spec does not say which handle;
    here it is the next unused number, and the call [ev] is recorded with
    it.  The library is not under [src/]. *)
Definition produce (v : Z) (ev : handle -> Event) (b : Backend)
  : handle * Backend :=
  let h := next b in
  (h, {| plain := <[h := v]> (plain b);
         next := N.succ h;
         acl := acl b;
         trace := trace b ++ [ev h] |}).

(** Modelled from the spec: [fromConstant(n)], the library's
    [FHE.asEuint32], a handle encrypting the constant. *)
Definition asEuint32 (n : Z) (b : Backend) : handle * Backend :=
  produce (wrap32 n) (EvTrivial n) b.

(** Modelled from the spec: [add(a, b)] has cleartext semantics
    [(a + b) mod 2^32]; the library's [FHE.add] on [euint32]. *)
Definition add (x y : handle) (b : Backend) : handle * Backend :=
  produce (wrap32 (value b x + value b y)) (EvAdd x y) b.

(** Modelled from the spec: [greaterThan(a, b)] has cleartext semantics
    [a > b]; the library's [FHE.gt]. *)
Definition gt (x y : handle) (b : Backend) : handle * Backend :=
  produce (if value b y <? value b x then 1 else 0) (EvGt x y) b.

(** Modelled from the spec: [select(cond, a, b)] has cleartext semantics
    [cond ? a : b]; the library's [FHE.select]. *)
Definition select (c x y : handle) (b : Backend) : handle * Backend :=
  produce (if value b c =? 0 then value b y else value b x)
          (EvSelect c x y) b.

(** An encrypted input as it reaches the contract: the value the client
    encrypted and whether the accompanying proof verifies. *)
Record ExternalInput : Type := {
  ext_value : Z;
  ext_proof_ok : bool
}.

(** Modelled from the spec: the proof of an input ciphertext is verified
    by the backend, and a failed verification aborts the transition; the
    library's [FHE.fromExternal].  A verified input becomes a handle of
    the 32-bit domain. *)
Definition fromExternal (inp : ExternalInput) (b : Backend)
  : option (handle * Backend) :=
  if ext_proof_ok inp
  then Some (produce (wrap32 (ext_value inp)) EvFromExternal b)
  else None.

(** Modelled from the spec: [grantSelf(handle)], the library's
    [FHE.allowThis]; [self] is the address of the calling contract. *)
Definition allowThis (self : address) (h : handle) (b : Backend) : Backend :=
  {| plain := plain b;
     next := next b;
     acl := {[ (h, self) ]} ∪ acl b;
     trace := trace b ++ [EvAllowThis h] |}.

(** Modelled from the spec: [grantTo(handle, principal)], the library's
    [FHE.allow]. *)
Definition allow (h : handle) (account : address) (b : Backend) : Backend :=
  {| plain := plain b;
     next := next b;
     acl := {[ (h, account) ]} ∪ acl b;
     trace := trace b ++ [EvAllow h account] |}.

End FHE.

(** ** Contract storage *)

Record PlayerData : Type := {
  totalMined : handle;     (* encrypted total mined amount *)
  exists_ : bool;          (* whether the player has mined before *)
  lastMineTime : Z         (* last mining timestamp *)
}.

(** The value a Solidity mapping holds at a key never written. *)
Definition noPlayer : PlayerData :=
  {| totalMined := 0%N; exists_ := false; lastMineTime := 0 |}.

Record State : Type := {
  players : gmap N PlayerData;
  playerAddresses : list N;
  rewardToken : address;
  minMineInterval : Z;
  totalMinedAmount : handle;
  this : address;                   (* address(this) *)
  fhe : FHE.Backend
}.

Definition player (st : State) (a : address) : PlayerData :=
  default noPlayer (players st !! a).

Definition set_player (a : address) (p : PlayerData) (st : State) : State :=
  {| players := <[a := p]> (players st);
     playerAddresses := playerAddresses st;
     rewardToken := rewardToken st;
     minMineInterval := minMineInterval st;
     totalMinedAmount := totalMinedAmount st;
     this := this st;
     fhe := fhe st |}.

Definition push_address (a : address) (st : State) : State :=
  {| players := players st;
     playerAddresses := playerAddresses st ++ [a];
     rewardToken := rewardToken st;
     minMineInterval := minMineInterval st;
     totalMinedAmount := totalMinedAmount st;
     this := this st;
     fhe := fhe st |}.

Definition set_totalMinedAmount (h : handle) (st : State) : State :=
  {| players := players st;
     playerAddresses := playerAddresses st;
     rewardToken := rewardToken st;
     minMineInterval := minMineInterval st;
     totalMinedAmount := h;
     this := this st;
     fhe := fhe st |}.

Definition set_fhe (b : FHE.Backend) (st : State) : State :=
  {| players := players st;
     playerAddresses := playerAddresses st;
     rewardToken := rewardToken st;
     minMineInterval := minMineInterval st;
     totalMinedAmount := totalMinedAmount st;
     this := this st;
     fhe := b |}.

(** ** Execution monad: state threaded through a call that may revert *)

Inductive Error : Type :=
| TooSoon             (* "MiningChallenge: Too soon to mine again" *)
| PlayerDoesNotExist  (* "MiningChallenge: Player does not exist" *)
| RewardTokenNotSet   (* "MiningChallenge: Reward token not set" *)
| IndexOutOfBounds    (* "MiningChallenge: Index out of bounds" *)
| ArithmeticOverflow  (* Panic(0x11) of checked uint256 arithmetic *)
| InvalidInput.       (* revert inside FHE.fromExternal *)

Inductive Result (A : Type) : Type :=
| Ok (a : A) (st : State)
| Revert (e : Error).
Arguments Ok {A} a st.
Arguments Revert {A} e.

Definition M (A : Type) : Type := State -> Result A.

Definition ret {A} (a : A) : M A := fun st => Ok a st.

Definition bind {A B} (m : M A) (k : A -> M B) : M B :=
  fun st => match m st with
            | Ok a st' => k a st'
            | Revert e => Revert e
            end.

#[global] Instance M_ret : MRet M := @ret.
#[global] Instance M_bind : MBind M := fun A B k m => bind m k.

Definition get {A} (f : State -> A) : M A := fun st => Ok (f st) st.
Definition modify (f : State -> State) : M unit := fun st => Ok tt (f st).
Definition revert {A} (e : Error) : M A := fun _ => Revert e.

Definition require (c : bool) (e : Error) : M unit :=
  if c then mret tt else revert e.

Definition when (c : bool) (m : M unit) : M unit :=
  if c then m else mret tt.

(** Checked [uint256] addition of Solidity 0.8. *)
Definition checked_add (x y : Z) : M Z :=
  if x + y <? two256 then mret (x + y) else revert ArithmeticOverflow.

(** Modelled from the spec: a call into the backend is a blocking
    request/response call (spec 5).  The spec lets such a call fail and
    abort the transition; the backend of the model always answers. *)
Definition lift (f : FHE.Backend -> handle * FHE.Backend) : M handle :=
  fun st => let '(h, b) := f (fhe st) in Ok h (set_fhe b st).

Definition FHE_asEuint32 (n : Z) : M handle := lift (FHE.asEuint32 n).
Definition FHE_add (x y : handle) : M handle := lift (FHE.add x y).
Definition FHE_gt (x y : handle) : M handle := lift (FHE.gt x y).
Definition FHE_select (c x y : handle) : M handle := lift (FHE.select c x y).

Definition FHE_fromExternal (inp : FHE.ExternalInput) : M handle :=
  fun st => match FHE.fromExternal inp (fhe st) with
            | Some (h, b) => Ok h (set_fhe b st)
            | None => Revert InvalidInput
            end.

Definition FHE_allowThis (h : handle) : M unit :=
  modify (fun st => set_fhe (FHE.allowThis (this st) h (fhe st)) st).

Definition FHE_allow (h : handle) (account : address) : M unit :=
  modify (fun st => set_fhe (FHE.allow h account (fhe st)) st).

(** Writes to the fields of [players[a]]. *)
Definition set_exists (a : address) (v : bool) : M unit :=
  modify (fun st =>
    let p := player st a in
    set_player a {| totalMined := totalMined p; exists_ := v;
                    lastMineTime := lastMineTime p |} st).

Definition set_totalMined (a : address) (h : handle) : M unit :=
  modify (fun st =>
    let p := player st a in
    set_player a {| totalMined := h; exists_ := exists_ p;
                    lastMineTime := lastMineTime p |} st).

Definition set_lastMineTime (a : address) (t : Z) : M unit :=
  modify (fun st =>
    let p := player st a in
    set_player a {| totalMined := totalMined p; exists_ := exists_ p;
                    lastMineTime := t |} st).

(** ** The contract *)

Definition constructor (self _rewardToken : address) (_minMineInterval : Z)
  : State :=
  let '(zero, b) := FHE.asEuint32 0 FHE.genesis in
  {| players := ∅;
     playerAddresses := [];
     rewardToken := _rewardToken;
     minMineInterval := _minMineInterval;
     totalMinedAmount := zero;
     this := self;
     fhe := b |}.

Definition mine (sender : address) (timestamp : Z)
    (encryptedAmount : FHE.ExternalInput) : M unit :=
  amount ← FHE_fromExternal encryptedAmount;
  FHE_allowThis amount;;
  (* check minimum mine interval *)
  ex ← get (fun st => exists_ (player st sender));
  when ex (
    last ← get (fun st => lastMineTime (player st sender));
    interval ← get minMineInterval;
    earliest ← checked_add last interval;
    require (earliest <=? timestamp) TooSoon);;
  (* update player data *)
  ex ← get (fun st => exists_ (player st sender));
  when (negb ex) (
    set_exists sender true;;
    zero ← FHE_asEuint32 0;
    set_totalMined sender zero;;
    modify (push_address sender));;
  (* add to the player's total *)
  mined ← get (fun st => totalMined (player st sender));
  total ← FHE_add mined amount;
  set_totalMined sender total;;
  (* update the global total *)
  global ← get totalMinedAmount;
  global' ← FHE_add global amount;
  modify (set_totalMinedAmount global');;
  global' ← get totalMinedAmount;
  FHE_allowThis global';;
  (* update last mine time *)
  set_lastMineTime sender timestamp;;
  (* grant ACL permissions for the player to decrypt their own total *)
  mined ← get (fun st => totalMined (player st sender));
  FHE_allowThis mined;;
  mined ← get (fun st => totalMined (player st sender));
  FHE_allow mined sender.

Definition getPlayerTotalMined (a : address) : M handle :=
  ex ← get (fun st => exists_ (player st a));
  require ex PlayerDoesNotExist;;
  get (fun st => totalMined (player st a)).

Definition getTotalMinedAmount : M handle := get totalMinedAmount.

Definition getPlayerCount : M Z :=
  get (fun st => Z.of_nat (length (playerAddresses st))).

Definition getPlayerAddress (index : Z) : M address :=
  len ← get (fun st => Z.of_nat (length (playerAddresses st)));
  require (index <? len) IndexOutOfBounds;;
  get (fun st => default 0%N (playerAddresses st !! Z.to_nat index)).

(** Body of the [for] loop of [calculateMyRank], run over the entries of
    [playerAddresses] from index 0 upwards; [count] is the running
    encrypted count. *)
Fixpoint rank_loop (sender : address) (myAmount : handle)
    (addrs : list address) (count : handle) : M handle :=
  match addrs with
  | [] => mret count
  | otherPlayer :: rest =>
      count' ←
        (if bool_decide (otherPlayer ≠ sender) then
           otherAmount ← get (fun st => totalMined (player st otherPlayer));
           isGreater ← FHE_gt otherAmount myAmount;
           one ← FHE_asEuint32 1;
           zero ← FHE_asEuint32 0;
           increment ← FHE_select isGreater one zero;
           FHE_add count increment
         else mret count);
      rank_loop sender myAmount rest count'
  end.

Definition calculateMyRank (sender : address) : M handle :=
  ex ← get (fun st => exists_ (player st sender));
  require ex PlayerDoesNotExist;;
  myAmount ← get (fun st => totalMined (player st sender));
  count ← FHE_asEuint32 0;
  addrs ← get playerAddresses;
  count ← rank_loop sender myAmount addrs count;
  one ← FHE_asEuint32 1;
  rankEnc ← FHE_add count one;
  FHE_allowThis rankEnc;;
  FHE_allow rankEnc sender;;
  mret rankEnc.

Definition distributeReward (a : address) (amount : Z) : M unit :=
  ex ← get (fun st => exists_ (player st a));
  require ex PlayerDoesNotExist;;
  token ← get rewardToken;
  require (negb (token =? 0)%N) RewardTokenNotSet.

Definition playerExists (a : address) : M bool :=
  get (fun st => exists_ (player st a)).

Definition getPlayerLastMineTime (a : address) : M Z :=
  ex ← get (fun st => exists_ (player st a));
  require ex PlayerDoesNotExist;;
  get (fun st => lastMineTime (player st a)).

(** ** Transactions

    A call that reverts leaves the state as it was before the call. *)

Inductive Outcome (A : Type) : Type :=
| Success (a : A)
| Failure (e : Error).
Arguments Success {A} a.
Arguments Failure {A} e.

Definition transact {A} (m : M A) (st : State) : State * Outcome A :=
  match m st with
  | Ok a st' => (st', Success a)
  | Revert e => (st, Failure e)
  end.

Definition succeeds {A} (m : M A) (st : State) : bool :=
  match m st with Ok _ _ => true | Revert _ => false end.

(** The state-changing entry points of the contract. *)
Inductive Call : Type :=
| Mine (sender : address) (timestamp : Z) (input : FHE.ExternalInput)
| CalculateMyRank (sender : address)
| DistributeReward (sender : address) (a : address) (amount : Z).

Definition step (st : State) (c : Call) : State :=
  match c with
  | Mine sender timestamp input => (transact (mine sender timestamp input) st).1
  | CalculateMyRank sender => (transact (calculateMyRank sender) st).1
  | DistributeReward _ a amount => (transact (distributeReward a amount) st).1
  end.

Definition run (st : State) (cs : list Call) : State := foldl step st cs.

(** The cleartext an input contributes. *)
Definition amount_of (input : FHE.ExternalInput) : Z :=
  wrap32 (FHE.ext_value input).

(** The successful contributions of a run, oldest first: who mined and the
    cleartext amount. *)
Fixpoint contributions (st : State) (cs : list Call) : list (address * Z) :=
  match cs with
  | [] => []
  | c :: cs' =>
      match c with
      | Mine sender timestamp input =>
          if succeeds (mine sender timestamp input) st
          then [(sender, amount_of input)] else []
      | _ => []
      end ++ contributions (step st c) cs'
  end.

(** States the contract can be in: deployed, then any calls. *)
Definition reachable (st : State) : Prop :=
  exists self token interval cs, st = run (constructor self token interval) cs.

(** Cleartext of a player's total, as the decryption oracle gives it. *)
Definition decrypt (st : State) (h : handle) : option Z :=
  FHE.decrypt (fhe st) h.

Definition clear_total (st : State) (a : address) : Z :=
  FHE.value (fhe st) (totalMined (player st a)).

Definition sumZ (l : list Z) : Z := foldr Z.add 0 l.


(** ** What a call to [mine] amounts to

    [mine_guard] collects the conditions under which [mine] reverts and
    [mine_state] the state a successful call leaves; [mine_unfold] below
    proves that [mine] is exactly their combination. *)

Definition mine_backend (self sender : address) (input : FHE.ExternalInput)
    (prev : option handle) (global : handle) (b : FHE.Backend)
  : handle * handle * FHE.Backend :=
  let '(amount, b1) :=
    FHE.produce (wrap32 (FHE.ext_value input)) FHE.EvFromExternal b in
  let b2 := FHE.allowThis self amount b1 in
  let '(mined, b3) :=
    match prev with
    | Some h => (h, b2)
    | None => FHE.asEuint32 0 b2
    end in
  let '(total, b4) := FHE.add mined amount b3 in
  let '(global', b5) := FHE.add global amount b4 in
  let b6 := FHE.allowThis self global' b5 in
  let b7 := FHE.allowThis self total b6 in
  (total, global', FHE.allow total sender b7).

Definition mine_state (st : State) (sender : address) (timestamp : Z)
    (input : FHE.ExternalInput) : State :=
  let p := player st sender in
  let '(total, global', b) :=
    mine_backend (this st) sender input
      (if exists_ p then Some (totalMined p) else None)
      (totalMinedAmount st) (fhe st) in
  {| players :=
       <[sender := {| totalMined := total; exists_ := true;
                      lastMineTime := timestamp |}]> (players st);
     playerAddresses :=
       if exists_ p then playerAddresses st
       else playerAddresses st ++ [sender];
     rewardToken := rewardToken st;
     minMineInterval := minMineInterval st;
     totalMinedAmount := global';
     this := this st;
     fhe := b |}.

Definition mine_guard (st : State) (sender : address) (timestamp : Z)
    (input : FHE.ExternalInput) : option Error :=
  if FHE.ext_proof_ok input then
    let p := player st sender in
    if exists_ p then
      if lastMineTime p + minMineInterval st <? two256 then
        if lastMineTime p + minMineInterval st <=? timestamp then None
        else Some TooSoon
      else Some ArithmeticOverflow
    else None
  else Some InvalidInput.


(** ** What a call to [calculateMyRank] amounts to

    The call only talks to the backend; [rank_backend] is the sequence of
    backend calls it makes, and [calculateMyRank_unfold] below proves the
    correspondence. *)

Definition rank_body_backend (otherAmount myAmount count : handle)
    (b : FHE.Backend) : handle * FHE.Backend :=
  let '(isGreater, b1) := FHE.gt otherAmount myAmount b in
  let '(one, b2) := FHE.asEuint32 1 b1 in
  let '(zero, b3) := FHE.asEuint32 0 b2 in
  let '(increment, b4) := FHE.select isGreater one zero b3 in
  FHE.add count increment b4.

Fixpoint rank_loop_backend (pl : gmap N PlayerData) (sender : address)
    (myAmount : handle) (addrs : list address) (count : handle)
    (b : FHE.Backend) : handle * FHE.Backend :=
  match addrs with
  | [] => (count, b)
  | otherPlayer :: rest =>
      let '(count', b') :=
        if bool_decide (otherPlayer ≠ sender)
        then rank_body_backend
               (totalMined (default noPlayer (pl !! otherPlayer)))
               myAmount count b
        else (count, b) in
      rank_loop_backend pl sender myAmount rest count' b'
  end.

Definition rank_backend (self : address) (pl : gmap N PlayerData)
    (addrs : list address) (sender : address) (b : FHE.Backend)
  : handle * FHE.Backend :=
  let myAmount := totalMined (default noPlayer (pl !! sender)) in
  let '(count, b1) := FHE.asEuint32 0 b in
  let '(count', b2) := rank_loop_backend pl sender myAmount addrs count b1 in
  let '(one, b3) := FHE.asEuint32 1 b2 in
  let '(rankEnc, b4) := FHE.add count' one b3 in
  (rankEnc, FHE.allow rankEnc sender (FHE.allowThis self rankEnc b4)).

(** ** Observations used in the statements *)

(** The registered principals other than [p] whose cleartext total is
    strictly greater than that of [p]. *)
Definition others_above (st : State) (p : address) : list address :=
  filter (fun q => q ≠ p ∧ clear_total st p < clear_total st q)
         (playerAddresses st).


(** The invariant of the ledger: the handles it stores were produced by
    the backend, the registry lists exactly the players with a record, and
    the global total is the sum of the players' totals. *)
Record Inv (st : State) : Prop := {
  inv_zero : FHE.plain (fhe st) !! 0%N = None;
  inv_global_lt : (totalMinedAmount st < FHE.next (fhe st))%N;
  inv_global_some : is_Some (FHE.plain (fhe st) !! totalMinedAmount st);
  inv_player_exists :
    forall a p, players st !! a = Some p -> exists_ p = true;
  inv_player_lt :
    forall a p, players st !! a = Some p ->
      (totalMined p < FHE.next (fhe st))%N;
  inv_player_some :
    forall a p, players st !! a = Some p ->
      is_Some (FHE.plain (fhe st) !! totalMined p);
  inv_registry :
    forall a, a ∈ playerAddresses st <-> is_Some (players st !! a);
  inv_nodup : NoDup (playerAddresses st);
  inv_sum :
    wrap32 (FHE.value (fhe st) (totalMinedAmount st)) =
    wrap32 (sumZ (map (clear_total st) (playerAddresses st)));
  inv_global_range :
    0 <= FHE.value (fhe st) (totalMinedAmount st) < two32;
  inv_player_range :
    forall a p, players st !! a = Some p ->
      0 <= FHE.value (fhe st) (totalMined p) < two32
}.

(** ** Use of handles in a trace of backend calls *)



Definition is_grant (e : FHE.Event) : bool :=
  match e with
  | FHE.EvAllowThis _ | FHE.EvAllow _ _ => true
  | _ => false
  end.


(** [quiet b b']: [b'] comes from [b] by homomorphic operations only; the
    cleartexts of the handles of [b] and the access-control list are
    those of [b], and no grant was made. *)
Definition quiet (b b' : FHE.Backend) : Prop :=
  (FHE.next b <= FHE.next b')%N /\
  (forall h, (h < FHE.next b)%N -> FHE.plain b' !! h = FHE.plain b !! h) /\
  FHE.acl b' = FHE.acl b /\
  exists evs, FHE.trace b' = FHE.trace b ++ evs /\
              forallb (fun e => negb (is_grant e)) evs = true.

(** [same_ledger st st']: the contract storage of [st'] is that of [st],
    and the backend of [st'] extends that of [st]: handles known to [st]
    keep their cleartext and no grant is withdrawn. *)
Definition same_ledger (st st' : State) : Prop :=
  players st' = players st /\
  playerAddresses st' = playerAddresses st /\
  rewardToken st' = rewardToken st /\
  minMineInterval st' = minMineInterval st /\
  totalMinedAmount st' = totalMinedAmount st /\
  this st' = this st /\
  (FHE.next (fhe st) <= FHE.next (fhe st'))%N /\
  (forall h, (h < FHE.next (fhe st))%N ->
     FHE.plain (fhe st') !! h = FHE.plain (fhe st) !! h) /\
  FHE.acl (fhe st) ⊆ FHE.acl (fhe st').

(** Appends [a] to the registry unless it is there already. *)
Definition register (acc : list address) (a : address) : list address :=
  if bool_decide (a ∈ acc) then acc else acc ++ [a].

(** Keeps the first occurrence of every element, in order. *)
Definition first_occurrences (l : list address) : list address :=
  foldl register [] l.

(** The backend calls made between state [st] and a later state [st']. *)
Definition call_trace (st st' : State) : list FHE.Event :=
  drop (length (FHE.trace (fhe st))) (FHE.trace (fhe st')).

(** ** The scenario of the specification: minInterval = 10 *)

Module Scenario.
Definition contract : address := 100%N.
Definition alice : address := 1%N.
Definition bob : address := 2%N.
Definition input (v : Z) : FHE.ExternalInput :=
  {| FHE.ext_value := v; FHE.ext_proof_ok := true |}.
Definition s0 : State := constructor contract 0%N 10.
Definition s1 : State := step s0 (Mine alice 0 (input 10)).
Definition s2 : State := step s1 (Mine alice 5 (input 5)).
Definition s3 : State := step s2 (Mine alice 11 (input 5)).
Definition s4 : State := step s3 (Mine bob 12 (input 20)).
Definition calls : list Call :=
  [Mine alice 0 (input 10); Mine alice 5 (input 5);
   Mine alice 11 (input 5); Mine bob 12 (input 20)].
(* Alice asks for her rank in the final state. *)
Definition ranked : State := step s4 (CalculateMyRank alice).
(* A total one short of 2^32, then a contribution of 2. *)
Definition full : State := step s0 (Mine alice 0 (input (2 ^ 32 - 1))).
Definition wrapped : State := step full (Mine alice 20 (input 2)).
(* A deployment whose interval is the largest [uint256]. *)
Definition forever : State :=
  step (constructor contract 0%N (2 ^ 256 - 1)) (Mine alice 1 (input 10)).
Definition unproved (v : Z) : FHE.ExternalInput :=
  {| FHE.ext_value := v; FHE.ext_proof_ok := false |}.
End Scenario.

(** ** Two players with the same total *)

Module Tie.
Definition calls : list Call :=
  [Mine Scenario.alice 0 (Scenario.input 10);
   Mine Scenario.bob 1 (Scenario.input 10)].
Definition tied : State := run Scenario.s0 calls.
End Tie.

(** ** Further observations of a run *)

(** The successful [mine] calls of a run, oldest first: who mined and at
    which block timestamp. *)
Fixpoint mine_times (st : State) (cs : list Call) : list (address * Z) :=
  match cs with
  | [] => []
  | c :: cs' =>
      match c with
      | Mine sender timestamp input =>
          if succeeds (mine sender timestamp input) st
          then [(sender, timestamp)] else []
      | _ => []
      end ++ mine_times (step st c) cs'
  end.

(** The values a list of pairs records for the principal [a], in order. *)
Definition entries_of (a : address) (l : list (address * Z)) : list Z :=
  map snd (filter (fun x => x.1 = a) l).

(** The comparisons among the backend calls [evs]. *)
Definition is_comparison (e : FHE.Event) : bool :=
  match e with FHE.EvGt _ _ _ => true | _ => false end.

Definition comparisons (evs : list FHE.Event) : list FHE.Event :=
  filter (fun e => is_comparison e = true) evs.

(** * Proofs *)

(** ** Symbolic execution of the monad *)

Ltac mcbv :=
  cbv [mbind M_bind bind mret M_ret ret get modify revert require when
       checked_add lift
       FHE_fromExternal FHE_asEuint32 FHE_add FHE_gt FHE_select FHE_allowThis
       FHE_allow set_exists set_totalMined set_lastMineTime set_player set_fhe
       push_address set_totalMinedAmount player FHE.fromExternal FHE.add
       FHE.gt FHE.select FHE.asEuint32 FHE.produce FHE.allowThis FHE.allow
       players playerAddresses rewardToken minMineInterval totalMinedAmount
       this fhe FHE.plain FHE.next FHE.acl FHE.trace totalMined exists_
       lastMineTime noPlayer default from_option id negb fst snd].

Ltac mrun_with H := repeat (progress (mcbv; rewrite ?H, ?lookup_insert_eq)).

(** Cleartext lookups in a backend extended by known handles. *)
Ltac vsimpl :=
  unfold FHE.value; cbn [FHE.plain];
  repeat (rewrite lookup_insert_eq || rewrite lookup_insert_ne by lia);
  cbn [default from_option id].

Lemma mine_unfold sender timestamp input st :
  mine sender timestamp input st =
  match mine_guard st sender timestamp input with
  | Some e => Revert e
  | None => Ok tt (mine_state st sender timestamp input)
  end.
Proof.
  destruct st as [pl addrs token interval global self [pln nxt ac tr]].
  unfold mine, mine_guard, mine_state, mine_backend.
  destruct (FHE.ext_proof_ok input) eqn:Hok; mcbv; rewrite Hok; [|done].
  destruct (pl !! sender) as [[mined ex last]|] eqn:Hp; mrun_with Hp.
  - destruct ex; mrun_with Hp.
    + destruct (last + interval <? two256); mrun_with Hp; [|done].
      destruct (last + interval <=? timestamp); mrun_with Hp; [|done].
      by rewrite !insert_insert_eq.
    + by rewrite !insert_insert_eq.
  - by rewrite !insert_insert_eq.
Qed.

(** ** Arithmetic modulo 2^32 *)

Lemma two32_pos : 0 < two32.
Proof. reflexivity. Qed.

Lemma wrap32_range z : 0 <= wrap32 z < two32.
Proof. apply Z.mod_pos_bound, two32_pos. Qed.

Lemma wrap32_small z : 0 <= z < two32 -> wrap32 z = z.
Proof. apply Z.mod_small. Qed.

Lemma wrap32_idemp z : wrap32 (wrap32 z) = wrap32 z.
Proof. apply Z.mod_mod. discriminate. Qed.

Lemma wrap32_add_l x y : wrap32 (wrap32 x + y) = wrap32 (x + y).
Proof. apply Zplus_mod_idemp_l. Qed.

Lemma wrap32_add_r x y : wrap32 (x + wrap32 y) = wrap32 (x + y).
Proof. apply Zplus_mod_idemp_r. Qed.

Lemma wrap32_add_cong x x' y :
  wrap32 x = wrap32 x' -> wrap32 (x + y) = wrap32 (x' + y).
Proof.
  intros H. rewrite <- (wrap32_add_l x), <- (wrap32_add_l x'). by rewrite H.
Qed.

Lemma wrap32_0 : wrap32 0 = 0.
Proof. reflexivity. Qed.

Lemma sumZ_cons x l : sumZ (x :: l) = x + sumZ l.
Proof. reflexivity. Qed.

Lemma sumZ_app l1 l2 : sumZ (l1 ++ l2) = sumZ l1 + sumZ l2.
Proof.
  induction l1 as [|x l1 IH]; [done|].
  rewrite <- app_comm_cons, !sumZ_cons, IH. lia.
Qed.

(** Sum over a duplicate-free list when the summand changes at one key. *)
Lemma sumZ_map_update (f g : N -> Z) (a : N) (l : list N) :
  NoDup l -> a ∈ l -> (forall x, x ≠ a -> g x = f x) ->
  sumZ (map g l) = sumZ (map f l) + (g a - f a).
Proof.
  intros Hnd Hin Hother. induction Hnd as [|x l Hx Hnd IH]; [by inversion Hin|].
  rewrite !map_cons, !sumZ_cons. destruct (decide (x = a)) as [->|Hne].
  - assert (map g l = map f l) as ->; [|lia].
    apply map_ext_in. intros y Hy. apply Hother. intros ->.
    by apply Hx, list_elem_of_In.
  - rewrite Hother by done. rewrite IH; [lia|].
    apply elem_of_cons in Hin as [->|Hin]; done.
Qed.

Lemma sumZ_map_ext (f g : N -> Z) (l : list N) :
  (forall x, x ∈ l -> g x = f x) -> sumZ (map g l) = sumZ (map f l).
Proof.
  intros H. f_equal. apply map_ext_in. intros y Hy. by apply H, list_elem_of_In.
Qed.

(** ** The backend *)

Lemma mine_backend_old self sender input h global b :
  (h < FHE.next b)%N -> (global < FHE.next b)%N ->
  mine_backend self sender input (Some h) global b =
  let n := FHE.next b in
  let a := amount_of input in
  (N.succ n, N.succ (N.succ n),
   {| FHE.plain :=
        <[N.succ (N.succ n) := wrap32 (FHE.value b global + a)]>
          (<[N.succ n := wrap32 (FHE.value b h + a)]>
             (<[n := a]> (FHE.plain b)));
      FHE.next := N.succ (N.succ (N.succ n));
      FHE.acl :=
        {[(N.succ n, sender)]} ∪ ({[(N.succ n, self)]} ∪
          ({[(N.succ (N.succ n), self)]} ∪ ({[(n, self)]} ∪ FHE.acl b)));
      FHE.trace :=
        FHE.trace b ++
        [FHE.EvFromExternal n; FHE.EvAllowThis n;
         FHE.EvAdd h n (N.succ n); FHE.EvAdd global n (N.succ (N.succ n));
         FHE.EvAllowThis (N.succ (N.succ n)); FHE.EvAllowThis (N.succ n);
         FHE.EvAllow (N.succ n) sender] |}).
Proof.
  intros Hh Hg. destruct b as [pl nx ac tr]. cbn in Hh, Hg.
  unfold mine_backend, amount_of.
  cbv [FHE.add FHE.asEuint32 FHE.produce FHE.allowThis FHE.allow
       FHE.plain FHE.next FHE.acl FHE.trace].
  vsimpl.
  by rewrite <- !app_assoc.
Qed.

Lemma mine_backend_new self sender input global b :
  (global < FHE.next b)%N ->
  mine_backend self sender input None global b =
  let n := FHE.next b in
  let a := amount_of input in
  (N.succ (N.succ n), N.succ (N.succ (N.succ n)),
   {| FHE.plain :=
        <[N.succ (N.succ (N.succ n)) := wrap32 (FHE.value b global + a)]>
          (<[N.succ (N.succ n) := wrap32 (0 + a)]>
             (<[N.succ n := 0]> (<[n := a]> (FHE.plain b))));
      FHE.next := N.succ (N.succ (N.succ (N.succ n)));
      FHE.acl :=
        {[(N.succ (N.succ n), sender)]} ∪ ({[(N.succ (N.succ n), self)]} ∪
          ({[(N.succ (N.succ (N.succ n)), self)]} ∪
             ({[(n, self)]} ∪ FHE.acl b)));
      FHE.trace :=
        FHE.trace b ++
        [FHE.EvFromExternal n; FHE.EvAllowThis n;
         FHE.EvTrivial 0 (N.succ n);
         FHE.EvAdd (N.succ n) n (N.succ (N.succ n));
         FHE.EvAdd global n (N.succ (N.succ (N.succ n)));
         FHE.EvAllowThis (N.succ (N.succ (N.succ n)));
         FHE.EvAllowThis (N.succ (N.succ n));
         FHE.EvAllow (N.succ (N.succ n)) sender] |}).
Proof.
  intros Hg. destruct b as [pl nx ac tr]. cbn in Hg.
  unfold mine_backend, amount_of.
  cbv [FHE.add FHE.asEuint32 FHE.produce FHE.allowThis FHE.allow
       FHE.plain FHE.next FHE.acl FHE.trace].
  vsimpl. rewrite wrap32_0.
  by rewrite <- !app_assoc.
Qed.

(** ** The state after a successful [mine] *)

Lemma mine_state_old st sender timestamp input p :
  Inv st -> players st !! sender = Some p ->
  mine_state st sender timestamp input =
  let n := FHE.next (fhe st) in
  let a := amount_of input in
  {| players :=
       <[sender := {| totalMined := N.succ n; exists_ := true;
                      lastMineTime := timestamp |}]> (players st);
     playerAddresses := playerAddresses st;
     rewardToken := rewardToken st;
     minMineInterval := minMineInterval st;
     totalMinedAmount := N.succ (N.succ n);
     this := this st;
     fhe :=
       {| FHE.plain :=
            <[N.succ (N.succ n) :=
                wrap32 (FHE.value (fhe st) (totalMinedAmount st) + a)]>
              (<[N.succ n := wrap32 (clear_total st sender + a)]>
                 (<[n := a]> (FHE.plain (fhe st))));
          FHE.next := N.succ (N.succ (N.succ n));
          FHE.acl :=
            {[(N.succ n, sender)]} ∪ ({[(N.succ n, this st)]} ∪
              ({[(N.succ (N.succ n), this st)]} ∪
                 ({[(n, this st)]} ∪ FHE.acl (fhe st))));
          FHE.trace :=
            FHE.trace (fhe st) ++
            [FHE.EvFromExternal n; FHE.EvAllowThis n;
             FHE.EvAdd (totalMined p) n (N.succ n);
             FHE.EvAdd (totalMinedAmount st) n (N.succ (N.succ n));
             FHE.EvAllowThis (N.succ (N.succ n)); FHE.EvAllowThis (N.succ n);
             FHE.EvAllow (N.succ n) sender] |} |}.
Proof.
  intros HI Hp. unfold mine_state, clear_total, player. rewrite Hp.
  cbn [default from_option id].
  rewrite (inv_player_exists st HI sender p Hp).
  rewrite mine_backend_old;
    [done | by eapply inv_player_lt | by apply inv_global_lt].
Qed.

Lemma clear_total_unregistered st a :
  Inv st -> players st !! a = None -> clear_total st a = 0.
Proof.
  intros HI Hp. unfold clear_total, player, FHE.value. rewrite Hp.
  cbn [default from_option id noPlayer totalMined].
  by rewrite (inv_zero st HI).
Qed.

Lemma mine_state_new st sender timestamp input :
  Inv st -> players st !! sender = None ->
  mine_state st sender timestamp input =
  let n := FHE.next (fhe st) in
  let a := amount_of input in
  {| players :=
       <[sender := {| totalMined := N.succ (N.succ n); exists_ := true;
                      lastMineTime := timestamp |}]> (players st);
     playerAddresses := playerAddresses st ++ [sender];
     rewardToken := rewardToken st;
     minMineInterval := minMineInterval st;
     totalMinedAmount := N.succ (N.succ (N.succ n));
     this := this st;
     fhe :=
       {| FHE.plain :=
            <[N.succ (N.succ (N.succ n)) :=
                wrap32 (FHE.value (fhe st) (totalMinedAmount st) + a)]>
              (<[N.succ (N.succ n) := wrap32 (0 + a)]>
                 (<[N.succ n := 0]> (<[n := a]> (FHE.plain (fhe st)))));
          FHE.next := N.succ (N.succ (N.succ (N.succ n)));
          FHE.acl :=
            {[(N.succ (N.succ n), sender)]} ∪
              ({[(N.succ (N.succ n), this st)]} ∪
                 ({[(N.succ (N.succ (N.succ n)), this st)]} ∪
                    ({[(n, this st)]} ∪ FHE.acl (fhe st))));
          FHE.trace :=
            FHE.trace (fhe st) ++
            [FHE.EvFromExternal n; FHE.EvAllowThis n;
             FHE.EvTrivial 0 (N.succ n);
             FHE.EvAdd (N.succ n) n (N.succ (N.succ n));
             FHE.EvAdd (totalMinedAmount st) n (N.succ (N.succ (N.succ n)));
             FHE.EvAllowThis (N.succ (N.succ (N.succ n)));
             FHE.EvAllowThis (N.succ (N.succ n));
             FHE.EvAllow (N.succ (N.succ n)) sender] |} |}.
Proof.
  intros HI Hp. unfold mine_state, player. rewrite Hp.
  cbn [default from_option id noPlayer exists_].
  rewrite mine_backend_new; [done | by apply inv_global_lt].
Qed.

(** Cleartext totals after a successful [mine]. *)
Lemma clear_total_mine_sender st sender timestamp input :
  Inv st ->
  clear_total (mine_state st sender timestamp input) sender =
  wrap32 (clear_total st sender + amount_of input).
Proof.
  intros HI. destruct (players st !! sender) as [p|] eqn:Hp.
  - rewrite (mine_state_old _ _ _ _ p) by done.
    unfold clear_total at 1, player; cbn [players fhe].
    rewrite lookup_insert_eq. cbn [default from_option id totalMined].
    vsimpl. done.
  - rewrite mine_state_new by done.
    unfold clear_total at 1, player; cbn [players fhe].
    rewrite lookup_insert_eq. cbn [default from_option id totalMined].
    vsimpl. by rewrite clear_total_unregistered.
Qed.

Lemma clear_total_mine_other st sender timestamp input a :
  Inv st -> a ≠ sender ->
  clear_total (mine_state st sender timestamp input) a = clear_total st a.
Proof.
  intros HI Hne.
  assert (Hlt : (totalMined (player st a) < FHE.next (fhe st))%N).
  { unfold player. destruct (players st !! a) as [q|] eqn:Hq; cbn.
    - by eapply inv_player_lt.
    - pose proof (inv_global_lt st HI). lia. }
  destruct (players st !! sender) as [p|] eqn:Hp.
  - rewrite (mine_state_old _ _ _ _ p) by done.
    unfold clear_total, player in *; cbn [players fhe].
    rewrite lookup_insert_ne by done. vsimpl. done.
  - rewrite mine_state_new by done.
    unfold clear_total, player in *; cbn [players fhe].
    rewrite lookup_insert_ne by done. vsimpl. done.
Qed.

Lemma global_mine st sender timestamp input :
  Inv st ->
  let st' := mine_state st sender timestamp input in
  FHE.plain (fhe st') !! totalMinedAmount st' =
  Some (wrap32 (FHE.value (fhe st) (totalMinedAmount st) + amount_of input)).
Proof.
  intros HI. destruct (players st !! sender) as [p|] eqn:Hp; cbv zeta.
  - rewrite (mine_state_old _ _ _ _ p) by done. cbn. by rewrite lookup_insert_eq.
  - rewrite mine_state_new by done. cbn. by rewrite lookup_insert_eq.
Qed.

(** ** The invariant holds after deployment and is kept by [mine] *)

Lemma wrap32_update s x c : wrap32 (s + (wrap32 (c + x) - c)) = wrap32 (s + x).
Proof.
  replace (s + (wrap32 (c + x) - c)) with (wrap32 (c + x) + (s - c)) by lia.
  rewrite wrap32_add_l. f_equal. lia.
Qed.

Lemma Inv_constructor self token interval :
  Inv (constructor self token interval).
Proof.
  split; cbn.
  - done.
  - lia.
  - by rewrite lookup_insert_eq.
  - intros a p Hp. by rewrite lookup_empty in Hp.
  - intros a p Hp. by rewrite lookup_empty in Hp.
  - intros a p Hp. by rewrite lookup_empty in Hp.
  - intros a. rewrite lookup_empty. split; [by inversion 1 | by intros [? ?]].
  - constructor.
  - done.
  - vsimpl. apply wrap32_range.
  - intros a p Hp. by rewrite lookup_empty in Hp.
Qed.

Lemma Inv_next_pos st : Inv st -> (0 < FHE.next (fhe st))%N.
Proof.
  intros HI. destruct (inv_global_some st HI) as [v Hv].
  pose proof (inv_global_lt st HI). lia.
Qed.

Lemma Inv_mine st sender timestamp input :
  Inv st -> Inv (mine_state st sender timestamp input).
Proof.
  intros HI.
  pose proof (clear_total_mine_sender st sender timestamp input HI) as Hsender.
  pose proof (fun a => clear_total_mine_other st sender timestamp input a HI)
    as Hother.
  pose proof (global_mine st sender timestamp input HI) as Hglobal.
  pose proof (Inv_next_pos st HI) as Hpos.
  cbv zeta in Hglobal.
  remember (mine_state st sender timestamp input) as st' eqn:Est.
  assert (Hsum :
    wrap32 (FHE.value (fhe st') (totalMinedAmount st')) =
    wrap32 (sumZ (map (clear_total st) (playerAddresses st))
            + amount_of input)).
  { unfold FHE.value at 1. rewrite Hglobal. cbn [default from_option id].
    rewrite wrap32_idemp. apply wrap32_add_cong, (inv_sum st HI). }
  destruct (players st !! sender) as [p|] eqn:Hp.
  - rewrite (mine_state_old _ _ _ _ p) in Est by done. cbv zeta in Est.
    assert (Hpl : players st' = <[sender := {| totalMined := N.succ (FHE.next (fhe st)); exists_ := true; lastMineTime := timestamp |}]> (players st)) by (by subst st').
    assert (Haddrs : playerAddresses st' = playerAddresses st) by (by subst st').
    assert (Hnext : FHE.next (fhe st') = N.succ (N.succ (N.succ (FHE.next (fhe st))))) by (by subst st').
    assert (Hgl : totalMinedAmount st' = N.succ (N.succ (FHE.next (fhe st)))) by (by subst st').
    assert (Hplain : forall h, (h < FHE.next (fhe st))%N ->
              FHE.plain (fhe st') !! h = FHE.plain (fhe st) !! h).
    { intros h Hh. subst st'; cbn. by rewrite !lookup_insert_ne by lia. }
    assert (Hnew : is_Some (FHE.plain (fhe st') !! N.succ (FHE.next (fhe st)))).
    { subst st'; cbn. rewrite lookup_insert_ne by lia.
      by rewrite lookup_insert_eq. }
    clear Est. split.
    + rewrite Hplain by done. apply (inv_zero st HI).
    + lia.
    + by rewrite Hglobal.
    + intros a q. rewrite Hpl, lookup_insert. case_decide.
      * by intros [= <-].
      * by apply inv_player_exists.
    + intros a q. rewrite Hpl, Hnext, lookup_insert. case_decide.
      * intros [= <-]. cbn. lia.
      * intros Hq. pose proof (inv_player_lt st HI a q Hq). lia.
    + intros a q. rewrite Hpl, lookup_insert. case_decide.
      * by intros [= <-].
      * intros Hq. pose proof (inv_player_lt st HI a q Hq).
        rewrite Hplain by done. by eapply inv_player_some.
    + intros a. rewrite Haddrs, Hpl, (inv_registry st HI a), lookup_insert.
      case_decide; [subst; by rewrite Hp | done].
    + rewrite Haddrs. apply (inv_nodup st HI).
    + rewrite Hsum, Haddrs.
      rewrite (sumZ_map_update (clear_total st) (clear_total st') sender).
      * by rewrite Hsender, wrap32_update.
      * apply (inv_nodup st HI).
      * apply (inv_registry st HI). by rewrite Hp.
      * intros x Hx. by apply Hother.
    + unfold FHE.value. rewrite Hglobal. apply wrap32_range.
    + intros a q. rewrite Hpl, lookup_insert. case_decide.
      * intros [= <-]. cbn [totalMined].
        assert (clear_total st' sender
                = FHE.value (fhe st') (N.succ (FHE.next (fhe st)))) as <-.
        { unfold clear_total, player. by rewrite Hpl, lookup_insert_eq. }
        rewrite Hsender. apply wrap32_range.
      * intros Hq. unfold FHE.value.
        rewrite Hplain by (by eapply inv_player_lt).
        by eapply inv_player_range.
  - rewrite mine_state_new in Est by done. cbv zeta in Est.
    assert (Hnotin : sender ∉ playerAddresses st).
    { rewrite (inv_registry st HI), Hp. by intros [? ?]. }
    assert (Hpl : players st' = <[sender := {| totalMined := N.succ (N.succ (FHE.next (fhe st))); exists_ := true; lastMineTime := timestamp |}]> (players st)) by (by subst st').
    assert (Haddrs : playerAddresses st' = playerAddresses st ++ [sender]) by (by subst st').
    assert (Hnext : FHE.next (fhe st') = N.succ (N.succ (N.succ (N.succ (FHE.next (fhe st)))))) by (by subst st').
    assert (Hgl : totalMinedAmount st' = N.succ (N.succ (N.succ (FHE.next (fhe st))))) by (by subst st').
    assert (Hplain : forall h, (h < FHE.next (fhe st))%N ->
              FHE.plain (fhe st') !! h = FHE.plain (fhe st) !! h).
    { intros h Hh. subst st'; cbn. by rewrite !lookup_insert_ne by lia. }
    assert (Hnew : is_Some (FHE.plain (fhe st') !! N.succ (N.succ (FHE.next (fhe st))))).
    { subst st'; cbn. rewrite lookup_insert_ne by lia.
      by rewrite lookup_insert_eq. }
    clear Est. split.
    + rewrite Hplain by done. apply (inv_zero st HI).
    + lia.
    + by rewrite Hglobal.
    + intros a q. rewrite Hpl, lookup_insert. case_decide.
      * by intros [= <-].
      * by apply inv_player_exists.
    + intros a q. rewrite Hpl, Hnext, lookup_insert. case_decide.
      * intros [= <-]. cbn. lia.
      * intros Hq. pose proof (inv_player_lt st HI a q Hq). lia.
    + intros a q. rewrite Hpl, lookup_insert. case_decide.
      * by intros [= <-].
      * intros Hq. pose proof (inv_player_lt st HI a q Hq).
        rewrite Hplain by done. by eapply inv_player_some.
    + intros a. rewrite Haddrs, Hpl, elem_of_app, list_elem_of_singleton.
      rewrite (inv_registry st HI a), lookup_insert.
      case_decide; [subst; split; [by eauto | by right] |].
      split; [by intros [?|?] | by left].
    + rewrite Haddrs. apply NoDup_app. split; [apply (inv_nodup st HI)|].
      split; [|apply NoDup_singleton].
      intros x Hx ->%list_elem_of_singleton. done.
    + rewrite Hsum, Haddrs. rewrite map_app, sumZ_app.
      rewrite (sumZ_map_ext (clear_total st) (clear_total st')).
      * cbn [map]. rewrite Hsender, sumZ_cons.
        rewrite (clear_total_unregistered st sender) by done.
        unfold sumZ at 3; cbn [foldr]. rewrite Z.add_0_r, Z.add_0_l.
        by rewrite wrap32_add_r.
      * intros x Hx. apply Hother. by intros ->.
    + unfold FHE.value. rewrite Hglobal. apply wrap32_range.
    + intros a q. rewrite Hpl, lookup_insert. case_decide.
      * intros [= <-]. cbn [totalMined].
        assert (clear_total st' sender
                = FHE.value (fhe st')
                    (N.succ (N.succ (FHE.next (fhe st))))) as <-.
        { unfold clear_total, player. by rewrite Hpl, lookup_insert_eq. }
        rewrite Hsender. apply wrap32_range.
      * intros Hq. unfold FHE.value.
        rewrite Hplain by (by eapply inv_player_lt).
        by eapply inv_player_range.
Qed.

(** ** The ranking loop *)

Lemma rank_loop_unfold sender myAmount addrs :
  forall count st,
    rank_loop sender myAmount addrs count st =
    let '(h, b') :=
      rank_loop_backend (players st) sender myAmount addrs count (fhe st) in
    Ok h (set_fhe b' st).
Proof.
  induction addrs as [|other rest IH]; intros count st.
  - by destruct st.
  - cbn [rank_loop rank_loop_backend].
    change (rank_loop sender myAmount rest) with
      (fun c => rank_loop sender myAmount rest c).
    destruct (bool_decide (other ≠ sender)).
    + unfold rank_body_backend. destruct st as [pl ? ? ? ? ? [? ? ? ?]].
      mcbv. rewrite IH. done.
    + mcbv. rewrite IH. by destruct st.
Qed.

Lemma calculateMyRank_unfold sender st :
  calculateMyRank sender st =
  if exists_ (player st sender) then
    let '(h, b') :=
      rank_backend (this st) (players st) (playerAddresses st) sender
                   (fhe st) in
    Ok h (set_fhe b' st)
  else Revert PlayerDoesNotExist.
Proof.
  unfold calculateMyRank, rank_backend.
  destruct st as [pl addrs ? ? ? self [? ? ? ?]].
  cbv [mbind M_bind bind get require player players].
  destruct (exists_ (default noPlayer (pl !! sender))); [|done].
  cbv [mret M_ret ret revert lift FHE_asEuint32 FHE_add FHE_allowThis
       FHE_allow modify set_fhe fhe this playerAddresses players
       rewardToken minMineInterval totalMinedAmount
       FHE.asEuint32 FHE.produce FHE.next FHE.plain FHE.acl FHE.trace].
  rewrite rank_loop_unfold. cbn [players fhe].
  destruct (rank_loop_backend _ _ _ _ _ _) as [h [? ? ? ?]].
  done.
Qed.

Lemma quiet_refl b : quiet b b.
Proof.
  split; [lia|]. split; [done|]. split; [done|].
  exists []. by rewrite app_nil_r.
Qed.

Lemma quiet_trans b1 b2 b3 : quiet b1 b2 -> quiet b2 b3 -> quiet b1 b3.
Proof.
  intros (Hn1 & Hp1 & Ha1 & evs1 & Ht1 & Hg1) (Hn2 & Hp2 & Ha2 & evs2 & Ht2 & Hg2).
  split; [lia|]. split; [|split].
  - intros h Hh. rewrite Hp2 by lia. by apply Hp1.
  - congruence.
  - exists (evs1 ++ evs2). rewrite Ht2, Ht1, app_assoc. split; [done|].
    rewrite forallb_app. by rewrite Hg1, Hg2.
Qed.

Lemma quiet_value b b' h :
  quiet b b' -> (h < FHE.next b)%N -> FHE.value b' h = FHE.value b h.
Proof. intros (_ & Hp & _) Hh. unfold FHE.value. by rewrite Hp. Qed.

Lemma rank_body_quiet other my count b :
  quiet b (rank_body_backend other my count b).2.
Proof.
  destruct b as [pl n ac tr]. unfold rank_body_backend, quiet.
  cbv [FHE.gt FHE.asEuint32 FHE.select FHE.add FHE.produce
       FHE.plain FHE.next FHE.acl FHE.trace snd].
  split; [lia|]. split; [|split; [done|]].
  - intros h Hh. by rewrite !lookup_insert_ne by lia.
  - eexists. split; [by rewrite <- !app_assoc | done].
Qed.

Lemma rank_body_value other my count b :
  (other < FHE.next b)%N -> (my < FHE.next b)%N -> (count < FHE.next b)%N ->
  let '(h, b') := rank_body_backend other my count b in
  (h < FHE.next b')%N /\
  FHE.value b' h =
  wrap32 (FHE.value b count
          + (if bool_decide (FHE.value b my < FHE.value b other)
             then 1 else 0)).
Proof.
  intros Ho Hm Hc. destruct b as [pl n ac tr]. cbn in Ho, Hm, Hc.
  unfold rank_body_backend.
  cbv [FHE.gt FHE.asEuint32 FHE.select FHE.add FHE.produce
       FHE.plain FHE.next FHE.acl FHE.trace].
  split; [lia|]. vsimpl. f_equal. f_equal.
  case_bool_decide as Hlt.
  - apply Z.ltb_lt in Hlt. by rewrite Hlt.
  - apply Z.ltb_nlt in Hlt. by rewrite Hlt.
Qed.

Lemma filter_ext_elem {A} (P Q : A -> Prop)
    `{!forall x, Decision (P x)} `{!forall x, Decision (Q x)} (l : list A) :
  (forall x, x ∈ l -> P x <-> Q x) -> filter P l = filter Q l.
Proof.
  induction l as [|x l IH]; intros Hext; [done|].
  rewrite !filter_cons. rewrite IH.
  - destruct (decide (P x)) as [HP|HP], (decide (Q x)) as [HQ|HQ]; try done.
    + exfalso. apply HQ, (Hext x); [left | done].
    + exfalso. apply HP, (Hext x); [left | done].
  - intros y Hy. apply Hext. by right.
Qed.

Lemma rank_loop_backend_quiet pl sender my addrs :
  forall count b, quiet b (rank_loop_backend pl sender my addrs count b).2.
Proof.
  induction addrs as [|other rest IH]; intros count b; cbn [rank_loop_backend].
  - apply quiet_refl.
  - destruct (bool_decide (other ≠ sender)); [|apply IH].
    pose proof (rank_body_quiet
                  (totalMined (default noPlayer (pl !! other))) my count b).
    destruct (rank_body_backend _ _ _ _) as [c' b'].
    eapply quiet_trans; [done | apply IH].
Qed.

Lemma rank_loop_backend_value pl sender my addrs :
  forall count b,
    (count < FHE.next b)%N -> (my < FHE.next b)%N ->
    (forall a, a ∈ addrs ->
       (totalMined (default noPlayer (pl !! a)) < FHE.next b)%N) ->
    let '(h, b') := rank_loop_backend pl sender my addrs count b in
    (h < FHE.next b')%N /\
    wrap32 (FHE.value b' h) =
    wrap32 (FHE.value b count
            + Z.of_nat (length (filter
                (fun q => q ≠ sender /\
                   FHE.value b my
                   < FHE.value b (totalMined (default noPlayer (pl !! q))))
                addrs))).
Proof.
  induction addrs as [|other rest IH]; intros count b Hc Hm Hall;
    cbn [rank_loop_backend].
  - split; [done|]. rewrite filter_nil. cbn. by rewrite Z.add_0_r.
  - assert (Hrest : forall a, a ∈ rest ->
       (totalMined (default noPlayer (pl !! a)) < FHE.next b)%N).
    { intros a Ha. apply Hall. by right. }
    rewrite filter_cons.
    case_bool_decide as Hne.
    + pose proof (rank_body_quiet
                    (totalMined (default noPlayer (pl !! other))) my count b)
        as Hq.
      pose proof (rank_body_value
                    (totalMined (default noPlayer (pl !! other))) my count b)
        as Hv.
      destruct (rank_body_backend _ _ _ _) as [c' b1]. cbn [snd] in Hq.
      destruct Hv as [Hc' Hv]; [apply Hall; by left | done | done |].
      pose proof Hq as (Hn & _).
      specialize (IH c' b1 Hc' ltac:(lia)).
      destruct (rank_loop_backend _ _ _ _ _ _) as [h b'].
      destruct IH as [Hh IH]; [intros a Ha; specialize (Hrest a Ha); lia|].
      split; [done|]. rewrite IH, Hv.
      rewrite (quiet_value b b1 my Hq) by done.
      rewrite (filter_ext_elem _
        (fun q => q ≠ sender /\
           FHE.value b my
           < FHE.value b (totalMined (default noPlayer (pl !! q)))) rest).
      2:{ intros x Hx. by rewrite (quiet_value b b1 _ Hq) by (by apply Hrest). }
      rewrite wrap32_add_l.
      destruct (decide _) as [[_ Hlt]|Hnlt].
      * rewrite bool_decide_true by done. cbn [length].
        f_equal. lia.
      * rewrite bool_decide_false by (intros ?; apply Hnlt; done).
        f_equal. lia.
    + destruct (decide _) as [[Hne' _]|_]; [done|].
      by apply IH.
Qed.

(** What [calculateMyRank] does to the backend: it only adds handles, and
    the two grants on the rank handle are the last calls it makes. *)
Lemma rank_backend_frame self pl addrs sender b :
  let '(h, b') := rank_backend self pl addrs sender b in
  (FHE.next b <= h)%N /\ (h < FHE.next b')%N /\
  (forall x, (x < FHE.next b)%N -> FHE.plain b' !! x = FHE.plain b !! x) /\
  FHE.acl b' = {[(h, sender)]} ∪ ({[(h, self)]} ∪ FHE.acl b) /\
  exists evs,
    FHE.trace b' =
    FHE.trace b ++ evs ++ [FHE.EvAllowThis h; FHE.EvAllow h sender] /\
    forallb (fun e => negb (is_grant e)) evs = true.
Proof.
  unfold rank_backend.
  set (my := totalMined (default noPlayer (pl !! sender))).
  destruct b as [pl0 n ac tr].
  cbv [FHE.asEuint32 FHE.produce FHE.plain FHE.next FHE.acl FHE.trace].
  match goal with |- context [rank_loop_backend pl sender my addrs ?c ?b] =>
    pose proof (rank_loop_backend_quiet pl sender my addrs c b) as Hq;
    destruct (rank_loop_backend pl sender my addrs c b) as [c' [pl2 n2 ac2 tr2]]
  end.
  destruct Hq as (Hn & Hp & Ha & evs & Ht & Hg).
  cbn [snd FHE.plain FHE.next FHE.acl FHE.trace] in *.
  cbv [FHE.add FHE.allow FHE.allowThis FHE.produce FHE.plain FHE.next
       FHE.acl FHE.trace].
  split; [lia|]. split; [lia|]. split; [|split].
  - intros x Hx. rewrite !lookup_insert_ne by lia. rewrite Hp by lia.
    by rewrite lookup_insert_ne by lia.
  - by rewrite Ha.
  - exists (FHE.EvTrivial 0 n
            :: evs ++ [FHE.EvTrivial 1 n2; FHE.EvAdd c' n2 (N.succ n2)]).
    split.
    + rewrite Ht. repeat (rewrite <- app_assoc; cbn [app]). done.
    + cbn [forallb is_grant negb andb]. rewrite forallb_app, Hg. done.
Qed.

Lemma rank_backend_value self pl addrs sender b :
  (totalMined (default noPlayer (pl !! sender)) < FHE.next b)%N ->
  (forall a, a ∈ addrs ->
     (totalMined (default noPlayer (pl !! a)) < FHE.next b)%N) ->
  let '(h, b') := rank_backend self pl addrs sender b in
  FHE.plain b' !! h =
  Some (wrap32 (Z.of_nat (length (filter
          (fun q => q ≠ sender /\
             FHE.value b (totalMined (default noPlayer (pl !! sender)))
             < FHE.value b (totalMined (default noPlayer (pl !! q))))
          addrs)) + 1)).
Proof.
  intros Hmy Hall. unfold rank_backend.
  set (my := totalMined (default noPlayer (pl !! sender))) in *.
  destruct b as [pl0 n ac tr].
  cbv [FHE.asEuint32 FHE.produce FHE.plain FHE.next FHE.acl FHE.trace] in *.
  match goal with |- context [rank_loop_backend pl sender my addrs ?c ?b] =>
    pose proof (rank_loop_backend_value pl sender my addrs c b) as Hv;
    destruct (rank_loop_backend pl sender my addrs c b) as [c' [pl2 n2 ac2 tr2]]
  end.
  cbn [FHE.next] in Hv.
  destruct Hv as [Hc' Hv]; [lia | lia | intros a Ha; specialize (Hall a Ha); lia |].
  cbn [FHE.next] in Hc'.
  cbv [FHE.add FHE.allow FHE.allowThis FHE.produce FHE.plain FHE.next
       FHE.acl FHE.trace].
  rewrite lookup_insert_eq. f_equal.
  unfold FHE.value at 1 2. cbn [FHE.plain].
  rewrite lookup_insert_eq. rewrite lookup_insert_ne by lia.
  cbn [default from_option id].
  change (default 0 (pl2 !! c')) with
    (FHE.value {| FHE.plain := pl2; FHE.next := n2; FHE.acl := ac2;
                  FHE.trace := tr2 |} c').
  rewrite <- wrap32_add_l, Hv, wrap32_add_l.
  unfold FHE.value at 1. cbn [FHE.plain]. rewrite lookup_insert_eq.
  cbn [default from_option id]. rewrite wrap32_0, Z.add_0_l.
  change (wrap32 1) with 1.
  f_equal. f_equal. f_equal. f_equal.
  apply filter_ext_elem. intros x Hx.
  unfold FHE.value; cbn [FHE.plain].
  rewrite !lookup_insert_ne; [done | |].
  - specialize (Hall x Hx). lia.
  - lia.
Qed.

(** ** Calls that leave the ledger alone *)

Lemma same_ledger_refl st : same_ledger st st.
Proof. unfold same_ledger. do 6 (split; [done|]). split; [lia|]. done. Qed.

Lemma Inv_same_ledger st st' : Inv st -> same_ledger st st' -> Inv st'.
Proof.
  intros HI (Hpl & Haddrs & _ & _ & Hgl & _ & Hn & Hp & _).
  assert (Hct : forall a, a ∈ playerAddresses st ->
                  clear_total st' a = clear_total st a).
  { intros a [p Ha]%(inv_registry st HI).
    unfold clear_total, player, FHE.value. rewrite Hpl, Ha.
    cbn [default from_option id]. rewrite Hp; [done|].
    by eapply inv_player_lt. }
  pose proof (Inv_next_pos st HI) as Hpos.
  pose proof (inv_global_lt st HI) as Hglt.
  split.
  - rewrite Hp by done. apply (inv_zero st HI).
  - rewrite Hgl. lia.
  - rewrite Hgl, Hp by done. apply (inv_global_some st HI).
  - intros a p. rewrite Hpl. by apply inv_player_exists.
  - intros a p. rewrite Hpl. intros Ha.
    pose proof (inv_player_lt st HI a p Ha). lia.
  - intros a p. rewrite Hpl. intros Ha.
    rewrite Hp by (by eapply inv_player_lt). by eapply inv_player_some.
  - intros a. rewrite Haddrs, Hpl. apply (inv_registry st HI).
  - rewrite Haddrs. apply (inv_nodup st HI).
  - rewrite Haddrs, Hgl. unfold FHE.value at 1. rewrite Hp by done.
    rewrite (sumZ_map_ext (clear_total st) (clear_total st')) by done.
    apply (inv_sum st HI).
  - rewrite Hgl. unfold FHE.value. rewrite Hp by done.
    apply (inv_global_range st HI).
  - intros a p. rewrite Hpl. intros Ha. unfold FHE.value.
    rewrite Hp by (by eapply inv_player_lt). by eapply inv_player_range.
Qed.

Lemma calculateMyRank_same_ledger sender st :
  same_ledger st (transact (calculateMyRank sender) st).1.
Proof.
  unfold transact. rewrite calculateMyRank_unfold.
  destruct (exists_ (player st sender)); [|apply same_ledger_refl].
  pose proof (rank_backend_frame (this st) (players st) (playerAddresses st)
                sender (fhe st)) as H.
  destruct (rank_backend _ _ _ _ _) as [h b'].
  destruct H as (Hle & Hh & Hp & Ha & _). cbn [fst].
  unfold same_ledger, set_fhe.
  cbn [players playerAddresses rewardToken minMineInterval totalMinedAmount
       this fhe].
  do 6 (split; [done|]). split; [lia|]. split; [done|].
  rewrite Ha. clear. set_solver.
Qed.

Lemma distributeReward_state a amount st :
  (transact (distributeReward a amount) st).1 = st.
Proof.
  unfold transact, distributeReward.
  cbv [mbind M_bind bind get require mret M_ret ret revert].
  destruct (exists_ (player st a)); [|done].
  by destruct (negb (rewardToken st =? 0)%N).
Qed.

(** ** Steps and runs *)

Lemma step_mine st sender timestamp input :
  step st (Mine sender timestamp input) =
  match mine_guard st sender timestamp input with
  | None => mine_state st sender timestamp input
  | Some _ => st
  end.
Proof.
  unfold step, transact. rewrite mine_unfold.
  by destruct (mine_guard st sender timestamp input).
Qed.

Lemma succeeds_mine st sender timestamp input :
  succeeds (mine sender timestamp input) st =
  match mine_guard st sender timestamp input with
  | None => true
  | Some _ => false
  end.
Proof.
  unfold succeeds. rewrite mine_unfold.
  by destruct (mine_guard st sender timestamp input).
Qed.

Lemma Inv_step st c : Inv st -> Inv (step st c).
Proof.
  intros HI. destruct c as [sender timestamp input|sender|sender a amount].
  - rewrite step_mine. destruct (mine_guard _ _ _ _); [done|].
    by apply Inv_mine.
  - eapply Inv_same_ledger; [done|]. apply calculateMyRank_same_ledger.
  - unfold step. by rewrite distributeReward_state.
Qed.

Lemma run_cons st c cs : run st (c :: cs) = run (step st c) cs.
Proof. reflexivity. Qed.

Lemma run_snoc st cs c : run st (cs ++ [c]) = step (run st cs) c.
Proof. unfold run. by rewrite foldl_app. Qed.

Lemma Inv_run cs : forall st, Inv st -> Inv (run st cs).
Proof.
  induction cs as [|c cs IH]; intros st HI; [done|].
  rewrite run_cons. by apply IH, Inv_step.
Qed.

Lemma Inv_reachable st : reachable st -> Inv st.
Proof.
  intros (self & token & interval & cs & ->).
  apply Inv_run, Inv_constructor.
Qed.

Lemma exists_registry st a :
  Inv st -> exists_ (player st a) = true <-> a ∈ playerAddresses st.
Proof.
  intros HI. rewrite (inv_registry st HI). unfold player.
  destruct (players st !! a) as [p|] eqn:Hp; cbn.
  - rewrite (inv_player_exists st HI a p Hp). split; [by eauto | done].
  - split; [done | by intros [? ?]].
Qed.

(** ** A run and its successful contributions *)

Lemma mine_state_registry st sender timestamp input :
  Inv st ->
  playerAddresses (mine_state st sender timestamp input) =
  register (playerAddresses st) sender.
Proof.
  intros HI. unfold register. pose proof (exists_registry st sender HI) as Hex.
  unfold mine_state.
  destruct (mine_backend _ _ _ _ _ _) as [[total global'] b].
  cbn [playerAddresses].
  destruct (exists_ (player st sender)).
  - rewrite bool_decide_true; [done | by apply Hex].
  - rewrite bool_decide_false; [done|]. intros Hin%Hex. done.
Qed.

Lemma step_other_same_ledger st c :
  (forall sender timestamp input, c = Mine sender timestamp input ->
     mine_guard st sender timestamp input ≠ None) ->
  same_ledger st (step st c).
Proof.
  intros Hc. destruct c as [sender timestamp input|sender|sender a amount].
  - rewrite step_mine. specialize (Hc _ _ _ eq_refl).
    destruct (mine_guard _ _ _ _); [apply same_ledger_refl | done].
  - apply calculateMyRank_same_ledger.
  - unfold step. rewrite distributeReward_state. apply same_ledger_refl.
Qed.

Lemma run_registry cs :
  forall st, Inv st ->
    playerAddresses (run st cs) =
    foldl register (playerAddresses st) (map fst (contributions st cs)).
Proof.
  induction cs as [|c cs IH]; intros st HI; [done|].
  rewrite run_cons, IH by (by apply Inv_step).
  cbn [contributions]. rewrite map_app, foldl_app. f_equal.
  destruct c as [sender timestamp input|sender|sender a amount].
  - rewrite step_mine, succeeds_mine.
    destruct (mine_guard _ _ _ _); [done|].
    cbn [map fst foldl]. by apply mine_state_registry.
  - cbn [step map foldl].
    by destruct (calculateMyRank_same_ledger sender st) as (_ & -> & _).
  - unfold step. by rewrite distributeReward_state.
Qed.

Lemma run_global cs :
  forall st, Inv st ->
    wrap32 (FHE.value (fhe (run st cs)) (totalMinedAmount (run st cs))) =
    wrap32 (FHE.value (fhe st) (totalMinedAmount st)
            + sumZ (map snd (contributions st cs))).
Proof.
  induction cs as [|c cs IH]; intros st HI.
  - cbn. by rewrite Z.add_0_r.
  - rewrite run_cons, IH by (by apply Inv_step).
    cbn [contributions]. rewrite map_app, sumZ_app, Z.add_assoc.
    apply wrap32_add_cong.
    destruct c as [sender timestamp input|sender|sender a amount].
    + rewrite step_mine, succeeds_mine.
      destruct (mine_guard _ _ _ _).
      * cbn. by rewrite Z.add_0_r.
      * pose proof (global_mine st sender timestamp input HI) as Hg.
        cbv zeta in Hg. unfold FHE.value at 1. rewrite Hg.
        cbn [default from_option id map snd]. rewrite wrap32_idemp.
        by rewrite sumZ_cons, Z.add_0_r.
    + destruct (calculateMyRank_same_ledger sender st)
        as (_ & _ & _ & _ & Hgl & _ & _ & Hp & _).
      cbn [step map sumZ foldr]. rewrite Z.add_0_r. unfold FHE.value.
      rewrite Hgl, Hp; [done | by apply inv_global_lt].
    + unfold step. rewrite distributeReward_state. cbn. by rewrite Z.add_0_r.
Qed.

Lemma decrypt_global st :
  Inv st ->
  decrypt st (totalMinedAmount st) =
  Some (wrap32 (FHE.value (fhe st) (totalMinedAmount st))).
Proof.
  intros HI. rewrite wrap32_small by apply (inv_global_range st HI).
  unfold decrypt, FHE.decrypt, FHE.value.
  by destruct (inv_global_some st HI) as [v ->].
Qed.

Lemma decrypt_total st a :
  Inv st -> a ∈ playerAddresses st ->
  decrypt st (totalMined (player st a)) = Some (clear_total st a).
Proof.
  intros HI [p Hp]%(inv_registry st HI).
  unfold decrypt, FHE.decrypt, clear_total, FHE.value, player. rewrite Hp.
  cbn [default from_option id].
  by destruct (inv_player_some st HI a p Hp) as [v ->].
Qed.

Lemma register_spec acc a :
  NoDup acc ->
  NoDup (register acc a) /\ forall x, x ∈ register acc a <-> x ∈ acc \/ x = a.
Proof.
  intros Hnd. unfold register. case_bool_decide as Hin.
  - split; [done|]. intros x. split; [by left | by intros [?| ->]].
  - split.
    + apply NoDup_app. split; [done|]. split; [|apply NoDup_singleton].
      by intros x Hx ->%list_elem_of_singleton.
    + intros x. by rewrite elem_of_app, list_elem_of_singleton.
Qed.

Lemma foldl_register_spec l :
  forall acc, NoDup acc ->
    NoDup (foldl register acc l) /\
    forall x, x ∈ foldl register acc l <-> x ∈ acc \/ x ∈ l.
Proof.
  induction l as [|a l IH]; intros acc Hnd; cbn [foldl].
  - split; [done|]. intros x. split; [by left | intros [?|H]; [done|]].
    by inversion H.
  - destruct (register_spec acc a Hnd) as [Hnd' Hin'].
    destruct (IH _ Hnd') as [Hnd'' Hin'']. split; [done|].
    intros x. rewrite Hin'', Hin', elem_of_cons. tauto.
Qed.

Lemma length_first_occurrences l :
  length (first_occurrences l) = size (list_to_set l : gset N).
Proof.
  destruct (foldl_register_spec l [] (NoDup_nil_2 (A:=N))) as [Hnd Hin].
  fold (first_occurrences l) in Hnd, Hin.
  rewrite <- (size_list_to_set (C := gset N) (first_occurrences l)) by done.
  f_equal. apply set_eq. intros x. rewrite !elem_of_list_to_set, Hin.
  split; [intros [H|H]; [by inversion H | done] | by right].
Qed.

(** * The claims *)

(** C1. After any sequence of calls starting from deployment, the global
    total decrypts to the sum modulo 2^32 of the cleartext amounts of the
    successful [mine] calls, and to the sum modulo 2^32 of the cleartext
    totals of the registered players, each of which the oracle decrypts. *)
Theorem global_total_is_sum_of_contributions self token interval cs :
  let st0 := constructor self token interval in
  let st := run st0 cs in
  decrypt st (totalMinedAmount st) =
    Some (wrap32 (sumZ (map snd (contributions st0 cs)))) /\
  decrypt st (totalMinedAmount st) =
    Some (wrap32 (sumZ (map (clear_total st) (playerAddresses st)))) /\
  (forall a, a ∈ playerAddresses st ->
     decrypt st (totalMined (player st a)) = Some (clear_total st a)).
Proof.
  intros st0 st.
  assert (HI0 : Inv st0) by apply Inv_constructor.
  assert (HI : Inv st) by (by apply Inv_run).
  rewrite decrypt_global by done. split; [|split].
  - f_equal. subst st. rewrite run_global by done.
    f_equal.
  - f_equal. apply (inv_sum st HI).
  - intros a Ha. by apply decrypt_total.
Qed.

(** C5. In every state reached from deployment a principal is in
    [playerAddresses] exactly when its record has [exists = true], no
    principal is listed twice, and [getPlayerCount] is the number of
    distinct principals with a successful [mine]. *)
Theorem registry_lists_each_player_once self token interval cs :
  let st0 := constructor self token interval in
  let st := run st0 cs in
  (forall a, a ∈ playerAddresses st <-> exists_ (player st a) = true) /\
  NoDup (playerAddresses st) /\
  getPlayerCount st =
    Ok (Z.of_nat (size (list_to_set (map fst (contributions st0 cs)) : gset N)))
       st.
Proof.
  intros st0 st.
  assert (HI0 : Inv st0) by apply Inv_constructor.
  assert (HI : Inv st) by (by apply Inv_run).
  split; [|split].
  - intros a. symmetry. by apply exists_registry.
  - apply (inv_nodup st HI).
  - unfold getPlayerCount, get. do 3 f_equal.
    subst st. rewrite run_registry by done.
    apply length_first_occurrences.
Qed.

(** C10. [getPlayerAddress index] returns the principal at position
    [index] of the first-contribution order when [index] is below
    [getPlayerCount], and reverts with the index-out-of-bounds error
    otherwise; being a view, it leaves the state as it was either way. *)
Theorem getPlayerAddress_in_first_contribution_order
    self token interval cs index :
  0 <= index ->
  let st0 := constructor self token interval in
  let st := run st0 cs in
  let order := first_occurrences (map fst (contributions st0 cs)) in
  getPlayerCount st = Ok (Z.of_nat (length order)) st /\
  (index < Z.of_nat (length order) ->
     exists a, order !! Z.to_nat index = Some a /\
               getPlayerAddress index st = Ok a st) /\
  (Z.of_nat (length order) <= index ->
     getPlayerAddress index st = Revert IndexOutOfBounds) /\
  (transact (getPlayerAddress index) st).1 = st.
Proof.
  intros Hidx st0 st order.
  assert (Horder : playerAddresses st = order).
  { subst st order. rewrite run_registry by apply Inv_constructor. done. }
  unfold getPlayerCount, getPlayerAddress, transact.
  cbv [mbind M_bind bind get require mret M_ret ret revert].
  rewrite Horder. split; [reflexivity|]. split; [|split].
  - intros Hlt. apply Z.ltb_lt in Hlt as Hltb. rewrite Hltb, Horder.
    destruct (lookup_lt_is_Some_2 order (Z.to_nat index)) as [a Ha]; [lia|].
    exists a. by rewrite Ha.
  - intros Hge. apply Z.ltb_ge in Hge. by rewrite Hge.
  - by destruct (index <? Z.of_nat (length order)).
Qed.

(** C9. [calculateMyRank], whoever calls it and whether or not it
    succeeds, leaves every player record, the registry, the global total
    handle and the configuration as they were, and every handle that
    existed before the call decrypts as before; of the state the ledger
    keeps, only the access-control relation may grow. *)
Theorem calculateMyRank_leaves_ledger_unchanged st sender :
  let st' := (transact (calculateMyRank sender) st).1 in
  players st' = players st /\
  playerAddresses st' = playerAddresses st /\
  totalMinedAmount st' = totalMinedAmount st /\
  rewardToken st' = rewardToken st /\
  minMineInterval st' = minMineInterval st /\
  (forall a, player st' a = player st a) /\
  (forall h, (h < FHE.next (fhe st))%N -> decrypt st' h = decrypt st h) /\
  FHE.acl (fhe st) ⊆ FHE.acl (fhe st').
Proof.
  destruct (calculateMyRank_same_ledger sender st)
    as (Hpl & Haddrs & Htok & Hint & Hgl & _ & _ & Hplain & Hacl).
  cbv zeta. repeat (split; [done|]). split; [|split; [|done]].
  - intros a. unfold player. by rewrite Hpl.
  - intros h Hh. by apply Hplain.
Qed.

(** C4. A [mine] call rejected by the rate limit leaves the whole state
    as it was before the call, and [getPlayerTotalMined] still returns
    the handle the player had before it. *)
Theorem rate_limited_mine_changes_nothing st sender timestamp input :
  mine sender timestamp input st = Revert TooSoon ->
  let st' := step st (Mine sender timestamp input) in
  st' = st /\
  getPlayerTotalMined sender st' = Ok (totalMined (player st sender)) st.
Proof.
  intros Hrev. cbv zeta.
  assert (Hst : step st (Mine sender timestamp input) = st).
  { unfold step, transact. by rewrite Hrev. }
  rewrite Hst. split; [done|].
  rewrite mine_unfold in Hrev. unfold mine_guard in Hrev.
  unfold getPlayerTotalMined.
  cbv [mbind M_bind bind get require mret M_ret ret revert].
  destruct (FHE.ext_proof_ok input); [|done].
  by destruct (exists_ (player st sender)).
Qed.

(** C3, as the code has it.  [mine] first has the backend verify the
    proof of the input, and fails with the error of the library exactly
    when the proof does not verify, whatever the record and the timestamp
    are.  It fails with the rate-limit error exactly when the proof
    verifies, the sender has a record, the sum
    [lastMineTime + minMineInterval] fits in a [uint256] and the timestamp
    is below it; when the proof verifies, the sender has a record and the
    sum does not fit, the call aborts with the arithmetic panic instead.
    A sender without a record is never stopped by the rate limit and
    succeeds whenever its proof verifies. *)
Theorem rate_limit_condition st sender timestamp input :
  let last := lastMineTime (player st sender) in
  (mine sender timestamp input st = Revert TooSoon <->
     FHE.ext_proof_ok input = true /\
     exists_ (player st sender) = true /\
     last + minMineInterval st < two256 /\
     timestamp < last + minMineInterval st) /\
  (mine sender timestamp input st = Revert ArithmeticOverflow <->
     FHE.ext_proof_ok input = true /\
     exists_ (player st sender) = true /\
     two256 <= last + minMineInterval st) /\
  (exists_ (player st sender) = false ->
     mine sender timestamp input st ≠ Revert TooSoon /\
     (FHE.ext_proof_ok input = true ->
        exists st', mine sender timestamp input st = Ok tt st')) /\
  (mine sender timestamp input st = Revert InvalidInput <->
     FHE.ext_proof_ok input = false).
Proof.
  cbv zeta. rewrite mine_unfold. unfold mine_guard.
  destruct (FHE.ext_proof_ok input).
  2:{ split; [|split; [|split]].
      - split; [done | by intros [? _]].
      - split; [done | by intros [? _]].
      - intros _. split; [done | done].
      - done. }
  destruct (exists_ (player st sender)).
  2:{ split; [|split; [|split]].
      - split; [done | by intros (_ & ? & _)].
      - split; [done | by intros (_ & ? & _)].
      - intros _. split; [done | by eauto].
      - done. }
  destruct (Z.ltb_spec (lastMineTime (player st sender) + minMineInterval st)
              two256) as [Hfit|Hover].
  - destruct (Z.leb_spec (lastMineTime (player st sender) + minMineInterval st)
                timestamp) as [Hle|Hlt].
    + split; [|split; [|split]].
      * split; [done | intros (_ & _ & _ & ?); lia].
      * split; [done | intros (_ & _ & ?); lia].
      * done.
      * done.
    + split; [|split; [|split]].
      * done.
      * split; [done | intros (_ & _ & ?); lia].
      * done.
      * done.
  - split; [|split; [|split]].
    + split; [done | intros (_ & _ & ? & _); lia].
    + done.
    + done.
    + done.
Qed.

(** ** Grants made by the two calls *)

Lemma mine_backend_grants self sender input prev global b :
  let '(total, global', b') := mine_backend self sender input prev global b in
  (total, sender) ∈ FHE.acl b' /\ (total, self) ∈ FHE.acl b' /\
  (global', self) ∈ FHE.acl b' /\
  exists evs,
    FHE.trace b' =
    FHE.trace b ++ FHE.EvFromExternal (FHE.next b)
                :: FHE.EvAllowThis (FHE.next b) :: evs.
Proof.
  destruct b as [pl n ac tr]. unfold mine_backend.
  destruct prev as [h|];
    cbv [FHE.add FHE.asEuint32 FHE.produce FHE.allowThis FHE.allow
         FHE.plain FHE.next FHE.acl FHE.trace];
    (split; [set_solver|]); (split; [set_solver|]); (split; [set_solver|]);
    eexists; repeat (rewrite <- app_assoc; cbn [app]); reflexivity.
Qed.

Lemma mine_Ok sender timestamp input st st' :
  mine sender timestamp input st = Ok tt st' ->
  st' = mine_state st sender timestamp input.
Proof.
  rewrite mine_unfold. destruct (mine_guard _ _ _ _); [done|].
  by intros [= <-].
Qed.

Lemma mine_grants sender timestamp input st st' :
  mine sender timestamp input st = Ok tt st' ->
  (totalMined (player st' sender), sender) ∈ FHE.acl (fhe st') /\
  (totalMined (player st' sender), this st') ∈ FHE.acl (fhe st') /\
  (totalMinedAmount st', this st') ∈ FHE.acl (fhe st') /\
  exists amount evs,
    FHE.trace (fhe st') =
    FHE.trace (fhe st) ++ FHE.EvFromExternal amount
                       :: FHE.EvAllowThis amount :: evs.
Proof.
  intros ->%mine_Ok. unfold mine_state.
  pose proof (mine_backend_grants (this st) sender input
    (if exists_ (player st sender) then Some (totalMined (player st sender))
     else None) (totalMinedAmount st) (fhe st)) as H.
  destruct (mine_backend _ _ _ _ _ _) as [[total global'] b'].
  destruct H as (H1 & H2 & H3 & evs & H4).
  unfold player. cbn [players fhe this totalMinedAmount].
  rewrite lookup_insert_eq. cbn [default from_option id totalMined].
  do 3 (split; [done|]). by exists (FHE.next (fhe st)), evs.
Qed.

Lemma calculateMyRank_Ok sender st h st' :
  calculateMyRank sender st = Ok h st' ->
  exists_ (player st sender) = true /\
  exists b',
    rank_backend (this st) (players st) (playerAddresses st) sender (fhe st)
    = (h, b') /\ st' = set_fhe b' st.
Proof.
  rewrite calculateMyRank_unfold.
  destruct (exists_ (player st sender)); [|done].
  destruct (rank_backend _ _ _ _ _) as [h0 b']. intros [= <- <-]. eauto.
Qed.

Lemma calculateMyRank_grants sender st h st' :
  calculateMyRank sender st = Ok h st' ->
  (h, this st') ∈ FHE.acl (fhe st') /\ (h, sender) ∈ FHE.acl (fhe st') /\
  exists evs,
    FHE.trace (fhe st') =
    FHE.trace (fhe st) ++ evs ++ [FHE.EvAllowThis h; FHE.EvAllow h sender] /\
    forallb (fun e => negb (is_grant e)) evs = true.
Proof.
  intros (_ & b' & Hb & ->)%calculateMyRank_Ok.
  pose proof (rank_backend_frame (this st) (players st) (playerAddresses st)
                sender (fhe st)) as H.
  rewrite Hb in H. destruct H as (_ & _ & _ & Ha & Ht).
  cbn [set_fhe fhe this]. rewrite Ha.
  split; [clear; set_solver|]. split; [clear; set_solver | done].
Qed.

(** C6. After a successful [mine] by a principal, the access-control
    relation holds the pair of that principal's new total handle and the
    principal; after a successful [calculateMyRank], the returned handle
    is granted to the contract itself and to the caller. *)
Theorem decrypt_rights_are_granted st sender :
  (forall timestamp input st',
     mine sender timestamp input st = Ok tt st' ->
     (totalMined (player st' sender), sender) ∈ FHE.acl (fhe st')) /\
  (forall h st',
     calculateMyRank sender st = Ok h st' ->
     (h, this st') ∈ FHE.acl (fhe st') /\ (h, sender) ∈ FHE.acl (fhe st')).
Proof.
  split.
  - intros timestamp input st' H. by apply mine_grants in H as (? & _).
  - intros h st' H. by apply calculateMyRank_grants in H as (? & ? & _).
Qed.



Lemma mine_state_exists st sender timestamp input :
  exists_ (player (mine_state st sender timestamp input) sender) = true.
Proof.
  unfold mine_state. destruct (mine_backend _ _ _ _ _ _) as [[total g] b].
  unfold player. cbn [players]. by rewrite lookup_insert_eq.
Qed.

(** C8. The homomorphic addition has cleartext semantics
    [(a + b) mod 2^32], and [mine] uses it for both sums: after a
    successful call the player's total decrypts to the old total plus the
    amount, modulo 2^32, and so does the global total; all three operands
    are in the 32-bit domain, and a sum that reaches 2^32 wraps. *)
Theorem mine_adds_modulo_two32 st sender timestamp input st' :
  reachable st ->
  mine sender timestamp input st = Ok tt st' ->
  let a := clear_total st sender in
  let g := FHE.value (fhe st) (totalMinedAmount st) in
  let b := amount_of input in
  (0 <= a < 2 ^ 32 /\ 0 <= g < 2 ^ 32 /\ 0 <= b < 2 ^ 32) /\
  decrypt st' (totalMined (player st' sender)) = Some ((a + b) mod 2 ^ 32) /\
  decrypt st' (totalMinedAmount st') = Some ((g + b) mod 2 ^ 32) /\
  (forall x y bk,
     FHE.decrypt (FHE.add x y bk).2 (FHE.add x y bk).1 =
     Some ((FHE.value bk x + FHE.value bk y) mod 2 ^ 32)).
Proof.
  intros HI%Inv_reachable ->%mine_Ok. cbv zeta.
  pose proof (Inv_mine st sender timestamp input HI) as HI'.
  split; [split; [|split]|split; [|split]].
  - unfold clear_total, player.
    destruct (players st !! sender) as [p|] eqn:Hp.
    + by apply (inv_player_range st HI sender p).
    + cbn. unfold FHE.value. rewrite (inv_zero st HI). done.
  - apply (inv_global_range st HI).
  - apply wrap32_range.
  - rewrite decrypt_total; [| done |].
    + by rewrite clear_total_mine_sender.
    + apply exists_registry; [done | apply mine_state_exists].
  - apply (global_mine st sender timestamp input HI).
  - intros x y bk. unfold FHE.add, FHE.produce, FHE.decrypt; cbn.
    by rewrite lookup_insert_eq.
Qed.

Lemma calculateMyRank_decrypts st p h st' :
  Inv st ->
  calculateMyRank p st = Ok h st' ->
  decrypt st' h =
  Some (wrap32 (Z.of_nat (length (others_above st p)) + 1)).
Proof.
  intros HI (_ & b' & Hb & ->)%calculateMyRank_Ok.
  assert (Hlt : forall a, (totalMined (default noPlayer (players st !! a))
                           < FHE.next (fhe st))%N).
  { intros a. destruct (players st !! a) as [q|] eqn:Hq; cbn.
    - by eapply inv_player_lt.
    - pose proof (inv_global_lt st HI). lia. }
  pose proof (rank_backend_value (this st) (players st) (playerAddresses st)
                p (fhe st) (Hlt p) (fun a _ => Hlt a)) as Hv.
  rewrite Hb in Hv. exact Hv.
Qed.

(** C2. In a reachable state let [k] be the number of registered
    principals other than [p] whose cleartext total is strictly greater
    than that of [p], with [k + 1] in the range of the 32-bit result.
    Then the handle a call of [calculateMyRank] by [p] returns decrypts
    to [k + 1]: to 1 when no other total is strictly greater, and
    principals whose total equals that of [p] are not counted.  The call
    returns for registered principals only. *)
Theorem rank_is_count_of_strictly_greater_plus_one st p h st' :
  reachable st ->
  calculateMyRank p st = Ok h st' ->
  let k := Z.of_nat (length (others_above st p)) in
  k + 1 < 2 ^ 32 ->
  exists_ (player st p) = true /\
  decrypt st' h = Some (k + 1) /\
  (k = 0 -> decrypt st' h = Some 1) /\
  (forall q, q ∈ others_above st p <->
     q ∈ playerAddresses st /\ q ≠ p /\
     clear_total st p < clear_total st q).
Proof.
  intros HI%Inv_reachable Hr k Hsmall.
  assert (Hd : decrypt st' h = Some (k + 1)).
  { rewrite (calculateMyRank_decrypts st p h st' HI Hr). f_equal.
    apply wrap32_small. fold k. unfold two32. lia. }
  split; [by apply calculateMyRank_Ok in Hr as [? _]|].
  split; [exact Hd|]. split; [by intros Hk; rewrite Hd, Hk|].
  intros q. unfold others_above. rewrite list_elem_of_filter. tauto.
Qed.

(** ** Filters *)

Lemma filter_all {A} (P : A -> Prop) `{!forall x, Decision (P x)}
    (l : list A) :
  (forall x, x ∈ l -> P x) -> filter P l = l.
Proof.
  induction l as [|x l IH]; intros Hall; [done|].
  rewrite filter_cons_True by (apply Hall; left).
  f_equal. apply IH. intros y Hy. apply Hall. by right.
Qed.

(** * Concrete runs *)

Import Scenario.

Lemma reachable_constructor self token interval :
  reachable (constructor self token interval).
Proof. by exists self, token, interval, []. Qed.

Lemma reachable_step st c : reachable st -> reachable (step st c).
Proof.
  intros (self & token & interval & cs & ->).
  exists self, token, interval, (cs ++ [c]). by rewrite run_snoc.
Qed.

(** The scenario of the specification: Alice mines 10 at time 0, is
    rejected at time 5, mines 5 at time 11, Bob mines 20 at time 12. *)
Example scenario_of_the_specification :
  decrypt s1 (totalMined (player s1 alice)) = Some 10 /\
  mine alice 5 (input 5) s1 = Revert TooSoon /\
  decrypt s2 (totalMined (player s2 alice)) = Some 10 /\
  decrypt s3 (totalMined (player s3 alice)) = Some 15 /\
  (exists h st', calculateMyRank alice s4 = Ok h st' /\ decrypt st' h = Some 2) /\
  (exists h st', calculateMyRank bob s4 = Ok h st' /\ decrypt st' h = Some 1) /\
  getPlayerCount s4 = Ok 2 s4.
Proof.
  split; [vm_compute; reflexivity|].
  split; [vm_compute; reflexivity|].
  split; [vm_compute; reflexivity|].
  split; [vm_compute; reflexivity|].
  split.
  { exists 20%N, (step s4 (CalculateMyRank alice)).
    split; vm_compute; reflexivity. }
  split.
  { exists 20%N, (step s4 (CalculateMyRank bob)).
    split; vm_compute; reflexivity. }
  vm_compute; reflexivity.
Qed.

(** ** Instances of the claims *)

Lemma global_total_in_the_scenario :
  let st0 := constructor contract 0%N 10 in
  let st := run st0 calls in
  decrypt st (totalMinedAmount st) =
    Some (wrap32 (sumZ (map snd (contributions st0 calls)))) /\
  decrypt st (totalMinedAmount st) =
    Some (wrap32 (sumZ (map (clear_total st) (playerAddresses st)))) /\
  (forall a, a ∈ playerAddresses st ->
     decrypt st (totalMined (player st a)) = Some (clear_total st a)).
Proof.
  exact (global_total_is_sum_of_contributions contract 0%N 10 calls).
Defined.

Lemma rank_of_alice_in_the_scenario :
  let k := Z.of_nat (length (others_above s4 alice)) in
  exists_ (player s4 alice) = true /\
  decrypt ranked 20%N = Some (k + 1) /\
  (k = 0 -> decrypt ranked 20%N = Some 1) /\
  (forall q, q ∈ others_above s4 alice <->
     q ∈ playerAddresses s4 /\ q ≠ alice /\
     clear_total s4 alice < clear_total s4 q).
Proof.
  refine (rank_is_count_of_strictly_greater_plus_one s4 alice 20%N ranked
            _ _ _).
  - exists contract, 0%N, 10, calls. vm_compute. reflexivity.
  - vm_compute. reflexivity.
  - vm_compute. reflexivity.
Defined.

Lemma second_mine_within_interval_is_too_soon :
  mine alice 5 (input 5) s1 = Revert TooSoon.
Proof.
  apply (proj2 (proj1 (rate_limit_condition s1 alice 5 (input 5)))).
  split; [reflexivity|].
  split; [vm_compute; reflexivity|].
  split; vm_compute; reflexivity.
Defined.

Lemma rejected_mine_in_the_scenario :
  let st' := step s1 (Mine alice 5 (input 5)) in
  st' = s1 /\
  getPlayerTotalMined alice st' = Ok (totalMined (player s1 alice)) s1.
Proof.
  apply (rate_limited_mine_changes_nothing s1 alice 5 (input 5)).
  vm_compute. reflexivity.
Defined.

Lemma registry_in_the_scenario :
  let st0 := constructor contract 0%N 10 in
  let st := run st0 calls in
  (forall a, a ∈ playerAddresses st <-> exists_ (player st a) = true) /\
  NoDup (playerAddresses st) /\
  getPlayerCount st =
    Ok (Z.of_nat (size (list_to_set (map fst (contributions st0 calls)) : gset N)))
       st.
Proof.
  exact (registry_lists_each_player_once contract 0%N 10 calls).
Defined.

Lemma grants_in_the_scenario :
  (totalMined (player s1 alice), alice) ∈ FHE.acl (fhe s1) /\
  (20%N, this ranked) ∈ FHE.acl (fhe ranked) /\
  (20%N, alice) ∈ FHE.acl (fhe ranked).
Proof.
  split.
  - apply (proj1 (decrypt_rights_are_granted s0 alice) 0 (input 10) s1).
    vm_compute. reflexivity.
  - apply (proj2 (decrypt_rights_are_granted s4 alice) 20%N ranked).
    vm_compute. reflexivity.
Defined.


Lemma total_wraps_past_two32 :
  let a := clear_total full alice in
  let g := FHE.value (fhe full) (totalMinedAmount full) in
  let b := amount_of (input 2) in
  (0 <= a < 2 ^ 32 /\ 0 <= g < 2 ^ 32 /\ 0 <= b < 2 ^ 32) /\
  decrypt wrapped (totalMined (player wrapped alice))
    = Some ((a + b) mod 2 ^ 32) /\
  decrypt wrapped (totalMinedAmount wrapped) = Some ((g + b) mod 2 ^ 32) /\
  (forall x y bk,
     FHE.decrypt (FHE.add x y bk).2 (FHE.add x y bk).1 =
     Some ((FHE.value bk x + FHE.value bk y) mod 2 ^ 32)).
Proof.
  apply (mine_adds_modulo_two32 full alice 20 (input 2) wrapped).
  - exists contract, 0%N, 10, [Mine alice 0 (input (2 ^ 32 - 1))].
    vm_compute. reflexivity.
  - vm_compute. reflexivity.
Defined.

Example wrapped_totals :
  clear_total full alice = 2 ^ 32 - 1 /\
  decrypt wrapped (totalMined (player wrapped alice)) = Some 1 /\
  decrypt wrapped (totalMinedAmount wrapped) = Some 1.
Proof. split; [|split]; vm_compute; reflexivity. Qed.

Lemma second_player_address_in_the_scenario :
  let st0 := constructor contract 0%N 10 in
  let st := run st0 calls in
  let order := first_occurrences (map fst (contributions st0 calls)) in
  getPlayerCount st = Ok (Z.of_nat (length order)) st /\
  (1 < Z.of_nat (length order) ->
     exists a, order !! Z.to_nat 1 = Some a /\
               getPlayerAddress 1 st = Ok a st) /\
  (Z.of_nat (length order) <= 1 ->
     getPlayerAddress 1 st = Revert IndexOutOfBounds) /\
  (transact (getPlayerAddress 1) st).1 = st.
Proof.
  apply (getPlayerAddress_in_first_contribution_order
           contract 0%N 10 calls 1).
  lia.
Defined.

(** ** Where the code departs from the claims as written *)

(** C3 where the deadline does not fit in a [uint256], and where the
    proof of the input does not verify: the sender has a record and the
    timestamp is below [lastMineTime + minMineInterval], yet the call
    fails with another error than the rate limit. *)
Lemma blocked_mine_without_rate_limit_error :
  (exists_ (player forever alice) = true /\
   2 < lastMineTime (player forever alice) + minMineInterval forever /\
   mine alice 2 (input 5) forever = Revert ArithmeticOverflow) /\
  (exists_ (player s1 alice) = true /\
   5 < lastMineTime (player s1 alice) + minMineInterval s1 /\
   mine alice 5 (unproved 5) s1 = Revert InvalidInput).
Proof.
  split; (split; [|split]); vm_compute; reflexivity.
Qed.


(** * Further properties of the contract *)

(** ** Records after a successful [mine] *)

Lemma mine_state_player_sender st sender timestamp input :
  exists total,
    player (mine_state st sender timestamp input) sender =
    {| totalMined := total; exists_ := true; lastMineTime := timestamp |}.
Proof.
  unfold mine_state. destruct (mine_backend _ _ _ _ _ _) as [[total g] b].
  exists total. unfold player. cbn [players]. by rewrite lookup_insert_eq.
Qed.

Lemma mine_state_players_other st sender timestamp input a :
  a ≠ sender ->
  players (mine_state st sender timestamp input) !! a = players st !! a.
Proof.
  intros Hne. unfold mine_state.
  destruct (mine_backend _ _ _ _ _ _) as [[total g] b].
  cbn [players]. by rewrite lookup_insert_ne.
Qed.

Lemma mine_state_player_other st sender timestamp input a :
  a ≠ sender ->
  player (mine_state st sender timestamp input) a = player st a.
Proof.
  intros Hne. unfold player. by rewrite mine_state_players_other.
Qed.

Lemma mine_state_config st sender timestamp input :
  let st' := mine_state st sender timestamp input in
  rewardToken st' = rewardToken st /\
  minMineInterval st' = minMineInterval st /\
  this st' = this st.
Proof.
  cbv zeta. unfold mine_state.
  by destruct (mine_backend _ _ _ _ _ _) as [[total g] b].
Qed.

(** ** Per-player histories *)

Lemma entries_of_app a l1 l2 :
  entries_of a (l1 ++ l2) = entries_of a l1 ++ entries_of a l2.
Proof. unfold entries_of. by rewrite filter_app, map_app. Qed.

Lemma entries_of_nil_iff a l : entries_of a l = [] <-> a ∉ map fst l.
Proof.
  unfold entries_of. induction l as [|[b v] l IH].
  - split; [|done]. intros _ H. by inversion H.
  - rewrite filter_cons. cbn [fst map]. rewrite not_elem_of_cons.
    destruct (decide (b = a)) as [->|Hne].
    + split; [done | by intros [? _]].
    + rewrite IH. split; [by split | by intros [_ ?]].
Qed.

Lemma mine_times_senders cs :
  forall st, map fst (mine_times st cs) = map fst (contributions st cs).
Proof.
  induction cs as [|c cs IH]; intros st; [done|].
  cbn [mine_times contributions]. rewrite !map_app, IH. f_equal.
  destruct c as [sender timestamp input| |]; [|done..].
  by destruct (succeeds _ _).
Qed.

Lemma run_registered cs st a :
  Inv st ->
  a ∈ playerAddresses (run st cs) <->
  a ∈ playerAddresses st \/ a ∈ map fst (contributions st cs).
Proof.
  intros HI. rewrite run_registry by done.
  apply foldl_register_spec, (inv_nodup st HI).
Qed.

Lemma clear_total_range st a : Inv st -> 0 <= clear_total st a < two32.
Proof.
  intros HI. unfold clear_total, player.
  destruct (players st !! a) as [p|] eqn:Hp.
  - by apply (inv_player_range st HI a p).
  - cbn. unfold FHE.value. by rewrite (inv_zero st HI).
Qed.

Lemma run_clear_total a cs :
  forall st, Inv st ->
    clear_total (run st cs) a =
    wrap32 (clear_total st a + sumZ (entries_of a (contributions st cs))).
Proof.
  induction cs as [|c cs IH]; intros st HI.
  - cbn. rewrite Z.add_0_r. symmetry. by apply wrap32_small, clear_total_range.
  - rewrite run_cons, IH by (by apply Inv_step).
    cbn [contributions]. rewrite entries_of_app, sumZ_app, Z.add_assoc.
    apply wrap32_add_cong.
    destruct c as [sender timestamp input|sender|sender b amount].
    + rewrite step_mine, succeeds_mine.
      destruct (mine_guard _ _ _ _).
      * cbn. by rewrite Z.add_0_r.
      * unfold entries_of. rewrite filter_cons, filter_nil. cbn [fst].
        destruct (decide (sender = a)) as [->|Hne].
        -- rewrite clear_total_mine_sender by done. rewrite wrap32_idemp.
           cbn. by rewrite Z.add_0_r.
        -- rewrite clear_total_mine_other by done. cbn.
           by rewrite Z.add_0_r.
    + cbn [entries_of filter map sumZ foldr]. rewrite Z.add_0_r.
      pose proof (calculateMyRank_same_ledger sender st) as Hs.
      cbn [step]. f_equal.
      destruct Hs as (Hpl & _ & _ & _ & _ & _ & _ & Hp & _).
      unfold clear_total, player, FHE.value. rewrite Hpl.
      destruct (players st !! a) as [p|] eqn:Ha; cbn [default from_option id].
      * rewrite Hp; [done | by eapply inv_player_lt].
      * rewrite Hp; [done | by apply Inv_next_pos].
    + unfold step. rewrite distributeReward_state. cbn. by rewrite Z.add_0_r.
Qed.

(** X1. After any calls from deployment, [getPlayerTotalMined a] reverts
    with "Player does not exist" when [a] has no successful [mine], and
    otherwise returns a handle other than the zero handle that decrypts
    to the sum modulo 2^32 of the amounts [a] itself contributed. *)
Theorem player_total_is_sum_of_own_contributions self token interval cs a :
  let st0 := constructor self token interval in
  let st := run st0 cs in
  let own := entries_of a (contributions st0 cs) in
  (own = [] -> getPlayerTotalMined a st = Revert PlayerDoesNotExist) /\
  (own ≠ [] ->
     exists h, getPlayerTotalMined a st = Ok h st /\ h ≠ 0%N /\
               decrypt st h = Some (wrap32 (sumZ own))).
Proof.
  intros st0 st own.
  assert (HI0 : Inv st0) by apply Inv_constructor.
  assert (HI : Inv st) by (by apply Inv_run).
  assert (Hreg : a ∈ playerAddresses st <-> own ≠ []).
  { subst st own. rewrite run_registered by done.
    rewrite entries_of_nil_iff. split.
    - intros [H|H]; [by inversion H | tauto].
    - intros H. right. by apply dec_stable. }
  unfold getPlayerTotalMined.
  cbv [mbind M_bind bind get require mret M_ret ret revert].
  split.
  - intros Hown. destruct (exists_ (player st a)) eqn:Hex; [|done].
    apply exists_registry in Hex; [|done]. by apply Hreg in Hex.
  - intros Hown. apply Hreg in Hown as Hin.
    apply exists_registry in Hin as Hex; [|done]. rewrite Hex.
    exists (totalMined (player st a)). split; [done|]. split.
    + apply (inv_registry st HI) in Hin as [p Hp].
      unfold player. rewrite Hp. cbn. intros H0.
      destruct (inv_player_some st HI a p Hp) as [v Hv].
      rewrite H0, (inv_zero st HI) in Hv. done.
    + rewrite decrypt_total by done. f_equal. subst st own.
      rewrite run_clear_total by done. f_equal.
Qed.

Lemma step_lastMineTime st c a :
  lastMineTime (player (step st c) a) =
  default (lastMineTime (player st a)) (last (entries_of a (mine_times st [c]))).
Proof.
  cbn [mine_times]. rewrite app_nil_r.
  destruct c as [sender timestamp input|sender|sender b amount].
  - rewrite step_mine, succeeds_mine.
    destruct (mine_guard _ _ _ _); [done|].
    unfold entries_of. rewrite filter_cons, filter_nil. cbn [fst].
    destruct (decide (sender = a)) as [->|Hne].
    + by destruct (mine_state_player_sender st a timestamp input) as [t ->].
    + by rewrite mine_state_player_other.
  - cbn [step entries_of filter map last default].
    destruct (calculateMyRank_same_ledger sender st) as (Hpl & _).
    unfold player. by rewrite Hpl.
  - unfold step. by rewrite distributeReward_state.
Qed.

Lemma run_lastMineTime a cs :
  forall st,
    lastMineTime (player (run st cs) a) =
    default (lastMineTime (player st a))
            (last (entries_of a (mine_times st cs))).
Proof.
  induction cs as [|c cs IH]; intros st; [done|].
  rewrite run_cons, IH, step_lastMineTime.
  cbn [mine_times]. rewrite app_nil_r, entries_of_app, last_app.
  by destruct (last (entries_of a (mine_times (step st c) cs))).
Qed.

(** X2. After any calls from deployment, [getPlayerLastMineTime a]
    returns the block timestamp of the latest successful [mine] of [a],
    whatever came after it, and reverts with "Player does not exist" when
    [a] has none. *)
Theorem last_mine_time_is_time_of_latest_successful_mine
    self token interval cs a :
  let st0 := constructor self token interval in
  let st := run st0 cs in
  match last (entries_of a (mine_times st0 cs)) with
  | Some t => getPlayerLastMineTime a st = Ok t st
  | None => getPlayerLastMineTime a st = Revert PlayerDoesNotExist
  end.
Proof.
  intros st0 st.
  assert (HI0 : Inv st0) by apply Inv_constructor.
  assert (HI : Inv st) by (by apply Inv_run).
  assert (Hreg : a ∈ playerAddresses st <->
                 entries_of a (mine_times st0 cs) ≠ []).
  { subst st. rewrite run_registered by done.
    rewrite entries_of_nil_iff, mine_times_senders. split.
    - intros [H|H]; [by inversion H | tauto].
    - intros H. right. by apply dec_stable. }
  pose proof (run_lastMineTime a cs st0) as Hlast. fold st in Hlast.
  unfold getPlayerLastMineTime.
  cbv [mbind M_bind bind get require mret M_ret ret revert].
  destruct (last (entries_of a (mine_times st0 cs))) as [t|] eqn:Hl.
  - assert (Hin : a ∈ playerAddresses st).
    { apply Hreg. intros Hnil. by rewrite Hnil in Hl. }
    apply exists_registry in Hin; [|done]. rewrite Hin. by rewrite Hlast.
  - apply last_None in Hl.
    destruct (exists_ (player st a)) eqn:Hex; [|done].
    apply exists_registry in Hex; [|done]. by apply Hreg in Hex.
Qed.

(** X3. After any calls from deployment, [playerExists a] is true exactly
    when [a] has a successful [mine] among them; a record is never
    removed, so the answer stays true after any further calls. *)
Theorem playerExists_iff_has_mined self token interval cs a :
  let st0 := constructor self token interval in
  (playerExists a (run st0 cs) = Ok true (run st0 cs) <->
     a ∈ map fst (contributions st0 cs)) /\
  (forall cs',
     playerExists a (run st0 cs) = Ok true (run st0 cs) ->
     playerExists a (run st0 (cs ++ cs')) = Ok true (run st0 (cs ++ cs'))).
Proof.
  intros st0.
  assert (HI0 : Inv st0) by apply Inv_constructor.
  assert (Hiff : forall l,
    playerExists a (run st0 l) = Ok true (run st0 l) <->
    a ∈ map fst (contributions st0 l)).
  { intros l. pose proof (Inv_run l st0 HI0) as HI.
    unfold playerExists, get.
    pose proof (exists_registry (run st0 l) a HI) as Hex.
    rewrite run_registered in Hex by done.
    split.
    - intros [= H]. apply Hex in H as [H|H]; [by inversion H | done].
    - intros H. f_equal. apply Hex. by right. }
  split; [apply Hiff|].
  intros cs' H. apply Hiff. apply Hiff in H.
  pose proof (Inv_run cs st0 HI0) as HI.
  assert (Hin : a ∈ playerAddresses (run st0 (cs ++ cs'))).
  { unfold run. rewrite foldl_app. fold (run st0 cs).
    fold (run (run st0 cs) cs'). rewrite run_registered by done. left.
    rewrite run_registered by done. by right. }
  rewrite run_registered in Hin by done.
  destruct Hin as [Hin|Hin]; [by inversion Hin | done].
Qed.

(** ** Configuration *)

Lemma step_config st c :
  rewardToken (step st c) = rewardToken st /\
  minMineInterval (step st c) = minMineInterval st /\
  this (step st c) = this st.
Proof.
  destruct c as [sender timestamp input|sender|sender b amount].
  - rewrite step_mine. destruct (mine_guard _ _ _ _); [done|].
    apply mine_state_config.
  - by destruct (calculateMyRank_same_ledger sender st)
      as (_ & _ & ? & ? & _ & ? & _).
  - unfold step. by rewrite distributeReward_state.
Qed.

(** X5. No call changes the reward token, the minimum mine interval or
    the address of the contract: after any calls from any state they are
    what they were. *)
Theorem configuration_never_changes st cs :
  rewardToken (run st cs) = rewardToken st /\
  minMineInterval (run st cs) = minMineInterval st /\
  this (run st cs) = this st.
Proof.
  revert st. induction cs as [|c cs IH]; intros st; [done|].
  rewrite run_cons. destruct (IH (step st c)) as (-> & -> & ->).
  apply step_config.
Qed.

Lemma run_rewardToken st cs : rewardToken (run st cs) = rewardToken st.
Proof.
  revert st. induction cs as [|c cs IH]; intros st; [done|].
  rewrite run_cons, IH. apply step_config.
Qed.

(** X4. After any calls from deployment, [distributeReward a amount]
    first requires that [a] has mined, then that the reward token given
    at deployment is not the zero address; it succeeds exactly when both
    hold, so never in a ledger deployed with the zero address, and in no
    case does it change the state. *)
Theorem distributeReward_checks_player_then_token
    self token interval cs a amount :
  let st0 := constructor self token interval in
  let st := run st0 cs in
  let own := entries_of a (contributions st0 cs) in
  (own = [] -> distributeReward a amount st = Revert PlayerDoesNotExist) /\
  (own ≠ [] -> token = 0%N ->
     distributeReward a amount st = Revert RewardTokenNotSet) /\
  (own ≠ [] -> token ≠ 0%N -> distributeReward a amount st = Ok tt st) /\
  (transact (distributeReward a amount) st).1 = st.
Proof.
  intros st0 st own.
  assert (HI0 : Inv st0) by apply Inv_constructor.
  assert (HI : Inv st) by (by apply Inv_run).
  assert (Hex : exists_ (player st a) = true <-> own ≠ []).
  { rewrite exists_registry by done. subst st own.
    rewrite run_registered by done. rewrite entries_of_nil_iff. split.
    - intros [H|H]; [by inversion H | tauto].
    - intros H. right. by apply dec_stable. }
  assert (Htok : rewardToken st = token).
  { subst st. by rewrite run_rewardToken. }
  split; [|split; [|split]]; [| | |apply distributeReward_state];
    unfold distributeReward;
    cbv [mbind M_bind bind get require mret M_ret ret revert].
  - intros Hno. destruct (exists_ (player st a)); [|done].
    exfalso. by apply Hex.
  - intros Hm Hz. apply Hex in Hm. by rewrite Hm, Htok, Hz.
  - intros Hm Hne. apply Hex in Hm. rewrite Hm, Htok.
    apply N.eqb_neq in Hne. by rewrite Hne.
Qed.

(** ** Ranks *)

Lemma others_above_lt_registry st p :
  p ∈ playerAddresses st ->
  (length (others_above st p) < length (playerAddresses st))%nat.
Proof.
  intros Hin. unfold others_above.
  apply (length_filter_lt _ _ p); [done | by intros [? _]].
Qed.

Lemma others_above_tie st p q :
  clear_total st p = clear_total st q ->
  others_above st p = others_above st q.
Proof.
  intros Heq. unfold others_above. apply filter_ext_elem. intros x _.
  rewrite Heq. split; intros [Hne Hlt]; (split; [|done]); intros ->; lia.
Qed.

Lemma others_above_mono st p q :
  p ∈ playerAddresses st ->
  clear_total st q < clear_total st p ->
  (length (others_above st p) < length (others_above st q))%nat.
Proof.
  intros Hin Hlt. unfold others_above.
  set (P := fun x => x ≠ p /\ clear_total st p < clear_total st x).
  set (Q := fun x => x ≠ q /\ clear_total st q < clear_total st x).
  assert (Hsub : filter P (playerAddresses st)
                 = filter P (filter Q (playerAddresses st))).
  { rewrite list_filter_filter. apply filter_ext_elem. intros x _.
    unfold P, Q. split; [|tauto]. intros [Hne Hx]. split; [done|].
    split; [intros ->; lia | lia]. }
  rewrite Hsub. apply (length_filter_lt _ _ p).
  - apply list_elem_of_filter. split; [|done]. split; [intros ->; lia | done].
  - by intros [? _].
Qed.

Lemma calculateMyRank_value st p h st' :
  reachable st ->
  Z.of_nat (length (playerAddresses st)) < 2 ^ 32 ->
  calculateMyRank p st = Ok h st' ->
  p ∈ playerAddresses st /\
  decrypt st' h = Some (Z.of_nat (length (others_above st p)) + 1).
Proof.
  intros HI%Inv_reachable Hsmall Hr.
  assert (Hin : p ∈ playerAddresses st).
  { apply exists_registry; [done|]. by apply calculateMyRank_Ok in Hr as [? _]. }
  split; [done|].
  rewrite (calculateMyRank_decrypts st p h st' HI Hr). f_equal.
  apply wrap32_small.
  pose proof (others_above_lt_registry st p Hin). unfold two32. lia.
Qed.

(** X6. After any calls from deployment, [calculateMyRank] reverts with
    "Player does not exist" exactly for the callers without a successful
    [mine]; a call that returns a handle was made by a principal that has
    mined. *)
Theorem calculateMyRank_fails_only_for_strangers
    self token interval cs a :
  let st0 := constructor self token interval in
  let st := run st0 cs in
  let own := entries_of a (contributions st0 cs) in
  (calculateMyRank a st = Revert PlayerDoesNotExist <-> own = []) /\
  (forall h st', calculateMyRank a st = Ok h st' -> own ≠ []).
Proof.
  intros st0 st own.
  assert (HI0 : Inv st0) by apply Inv_constructor.
  assert (HI : Inv st) by (by apply Inv_run).
  assert (Hex : exists_ (player st a) = true <-> own ≠ []).
  { rewrite exists_registry by done. subst st own.
    rewrite run_registered by done. rewrite entries_of_nil_iff. split.
    - intros [H|H]; [by inversion H | tauto].
    - intros H. right. by apply dec_stable. }
  rewrite calculateMyRank_unfold.
  destruct (exists_ (player st a)) eqn:E.
  - destruct (rank_backend _ _ _ _ _) as [h b'].
    split.
    + split; [done|]. intros Hno. exfalso. by apply Hex.
    + intros _ _ _. by apply Hex.
  - split.
    + split; [|done]. intros _. destruct own; [done|].
      exfalso. assert (false = true); [by apply Hex | done].
    + done.
Qed.

(** X7. In a reachable state, the ranks returned to two principals with
    equal cleartext totals decrypt to the same value. *)
Theorem equal_totals_get_equal_ranks st p q hp stp hq stq :
  reachable st ->
  calculateMyRank p st = Ok hp stp ->
  calculateMyRank q st = Ok hq stq ->
  clear_total st p = clear_total st q ->
  decrypt stp hp = decrypt stq hq.
Proof.
  intros HI%Inv_reachable Hrp Hrq Heq.
  rewrite (calculateMyRank_decrypts st p hp stp HI Hrp).
  rewrite (calculateMyRank_decrypts st q hq stq HI Hrq).
  by rewrite (others_above_tie st p q Heq).
Qed.

(** X8. In a reachable state with fewer than 2^32 registered principals,
    of the ranks returned to two principals the one of the principal with
    the strictly greater cleartext total is strictly smaller. *)
Theorem greater_total_gets_smaller_rank st p q hp stp hq stq :
  reachable st ->
  Z.of_nat (length (playerAddresses st)) < 2 ^ 32 ->
  calculateMyRank p st = Ok hp stp ->
  calculateMyRank q st = Ok hq stq ->
  clear_total st q < clear_total st p ->
  exists rp rq,
    decrypt stp hp = Some rp /\ decrypt stq hq = Some rq /\ rp < rq.
Proof.
  intros HR Hsmall Hrp Hrq Hlt.
  destruct (calculateMyRank_value st p hp stp HR Hsmall Hrp) as [Hp Hdp].
  destruct (calculateMyRank_value st q hq stq HR Hsmall Hrq) as [Hq Hdq].
  eexists _, _. do 2 (split; [done|]).
  pose proof (others_above_mono st p q Hp Hlt). lia.
Qed.

(** X9. In a reachable state with [n] registered principals, [n] below
    2^32, the rank returned to a principal is between 1 and [n], and it
    is 1 exactly when no other registered principal has a strictly
    greater cleartext total. *)
Theorem rank_is_between_one_and_player_count st p h st' :
  reachable st ->
  Z.of_nat (length (playerAddresses st)) < 2 ^ 32 ->
  calculateMyRank p st = Ok h st' ->
  exists r,
    decrypt st' h = Some r /\
    1 <= r <= Z.of_nat (length (playerAddresses st)) /\
    (r = 1 <->
       forall q, q ∈ playerAddresses st -> q ≠ p ->
                 clear_total st q <= clear_total st p).
Proof.
  intros HR Hsmall Hr.
  destruct (calculateMyRank_value st p h st' HR Hsmall Hr) as [Hp Hd].
  eexists. split; [done|].
  pose proof (others_above_lt_registry st p Hp) as Hlt.
  split; [lia|]. split.
  - intros H1 q Hq Hne.
    assert (Hnil : others_above st p = []).
    { apply length_zero_iff_nil. lia. }
    destruct (Z.le_gt_cases (clear_total st q) (clear_total st p)); [done|].
    assert (q ∈ others_above st p) as Hin.
    { apply list_elem_of_filter. split; [split; [done|lia] | done]. }
    rewrite Hnil in Hin. by inversion Hin.
  - intros Hall.
    assert (Hnil : others_above st p = []).
    { unfold others_above.
      destruct (filter _ _) as [|x l] eqn:Hf; [done|].
      assert (Hx : x ∈ filter
                (fun q => q ≠ p /\ clear_total st p < clear_total st q)
                (playerAddresses st)) by (rewrite Hf; left).
      apply list_elem_of_filter in Hx as [[Hne Hgt] Hin].
      specialize (Hall x Hin Hne). lia. }
    by rewrite Hnil.
Qed.

(** ** What every call keeps *)

Lemma mine_backend_extends self sender input prev global b :
  let '(_, _, b') := mine_backend self sender input prev global b in
  (FHE.next b <= FHE.next b')%N /\
  (forall h, (h < FHE.next b)%N -> FHE.plain b' !! h = FHE.plain b !! h) /\
  FHE.acl b ⊆ FHE.acl b'.
Proof.
  destruct b as [pl n ac tr]. unfold mine_backend.
  destruct prev as [h0|];
    cbv [FHE.add FHE.asEuint32 FHE.produce FHE.allowThis FHE.allow
         FHE.plain FHE.next FHE.acl FHE.trace];
    (split; [lia|]); (split; [|clear; set_solver]);
    intros h Hh; by rewrite !lookup_insert_ne by lia.
Qed.

Lemma step_extends st c :
  (FHE.next (fhe st) <= FHE.next (fhe (step st c)))%N /\
  (forall h, (h < FHE.next (fhe st))%N ->
     FHE.plain (fhe (step st c)) !! h = FHE.plain (fhe st) !! h) /\
  FHE.acl (fhe st) ⊆ FHE.acl (fhe (step st c)).
Proof.
  destruct c as [sender timestamp input|sender|sender b amount].
  - rewrite step_mine. destruct (mine_guard _ _ _ _); [split; [lia|split; [done|done]]|].
    unfold mine_state.
    pose proof (mine_backend_extends (this st) sender input
      (if exists_ (player st sender)
       then Some (totalMined (player st sender)) else None)
      (totalMinedAmount st) (fhe st)) as H.
    by destruct (mine_backend _ _ _ _ _ _) as [[total g] b'].
  - by destruct (calculateMyRank_same_ledger sender st)
      as (_ & _ & _ & _ & _ & _ & ? & ? & ?).
  - unfold step. rewrite distributeReward_state. split; [lia|split; [done|done]].
Qed.

Lemma run_extends cs :
  forall st,
    (FHE.next (fhe st) <= FHE.next (fhe (run st cs)))%N /\
    (forall h, (h < FHE.next (fhe st))%N ->
       FHE.plain (fhe (run st cs)) !! h = FHE.plain (fhe st) !! h) /\
    FHE.acl (fhe st) ⊆ FHE.acl (fhe (run st cs)).
Proof.
  induction cs as [|c cs IH]; intros st.
  { change (run st []) with st. split; [lia|split; [done|done]]. }
  rewrite run_cons.
  destruct (step_extends st c) as (Hn & Hp & Ha).
  destruct (IH (step st c)) as (Hn' & Hp' & Ha').
  split; [lia|]. split; [|by etrans].
  intros h Hh. rewrite Hp' by lia. by apply Hp.
Qed.

Lemma step_registry_prefix st c :
  playerAddresses st `prefix_of` playerAddresses (step st c).
Proof.
  destruct c as [sender timestamp input|sender|sender b amount].
  - rewrite step_mine. destruct (mine_guard _ _ _ _); [done|].
    unfold mine_state. destruct (mine_backend _ _ _ _ _ _) as [[total g] b'].
    cbn [playerAddresses].
    destruct (exists_ (player st sender)); [done | by apply prefix_app_r].
  - cbn [step].
    by destruct (calculateMyRank_same_ledger sender st) as (_ & -> & _).
  - unfold step. by rewrite distributeReward_state.
Qed.

Lemma run_registry_prefix cs :
  forall st, playerAddresses st `prefix_of` playerAddresses (run st cs).
Proof.
  induction cs as [|c cs IH]; intros st; [done|].
  rewrite run_cons. etrans; [apply step_registry_prefix | apply IH].
Qed.

(** X10. The registry only grows at its end: after any calls from any
    state the old list is a prefix of the new one, the player count has
    not decreased, and an index that [getPlayerAddress] resolved keeps
    resolving to the same principal. *)
Theorem registry_is_append_only st cs index a :
  0 <= index ->
  getPlayerAddress index st = Ok a st ->
  playerAddresses st `prefix_of` playerAddresses (run st cs) /\
  (length (playerAddresses st) <= length (playerAddresses (run st cs)))%nat /\
  getPlayerAddress index (run st cs) = Ok a (run st cs).
Proof.
  intros Hidx Hget. pose proof (run_registry_prefix cs st) as Hpre.
  apply prefix_length in Hpre as Hlen.
  split; [done|]. split; [done|].
  unfold getPlayerAddress in *.
  cbv [mbind M_bind bind get require mret M_ret ret revert] in *.
  destruct (Z.ltb_spec index (Z.of_nat (length (playerAddresses st))))
    as [Hlt|]; [|done].
  destruct (lookup_lt_is_Some_2 (playerAddresses st) (Z.to_nat index))
    as [x Hx]; [lia|].
  rewrite Hx in Hget. injection Hget as <-.
  assert (Hlt' : (index <? Z.of_nat (length (playerAddresses (run st cs))))
                 = true) by (apply Z.ltb_lt; lia).
  rewrite Hlt'.
  by rewrite (prefix_lookup_Some _ _ _ _ Hx Hpre).
Qed.

(** X11. Nothing is ever revoked or overwritten: after any calls from a
    reachable state every grant of the old access-control relation is
    still there, and the old global-total handle and every registered
    player's old total handle decrypt to what they decrypted to before,
    although the ledger has moved on to new handles. *)
Theorem grants_and_old_handles_persist st cs :
  reachable st ->
  FHE.acl (fhe st) ⊆ FHE.acl (fhe (run st cs)) /\
  decrypt (run st cs) (totalMinedAmount st) = decrypt st (totalMinedAmount st)
  /\
  (forall a, a ∈ playerAddresses st ->
     decrypt (run st cs) (totalMined (player st a)) =
     decrypt st (totalMined (player st a))).
Proof.
  intros HI%Inv_reachable.
  destruct (run_extends cs st) as (_ & Hp & Ha).
  split; [done|]. split.
  - apply Hp, (inv_global_lt st HI).
  - intros a [p Hpa]%(inv_registry st HI). unfold player. rewrite Hpa.
    apply Hp. by eapply inv_player_lt.
Qed.

(** ** The rate limit across calls *)

Lemma mine_state_guard_other st sender timestamp input q t' input' :
  q ≠ sender ->
  mine_guard (mine_state st sender timestamp input) q t' input' =
  mine_guard st q t' input'.
Proof.
  intros Hne. unfold mine_guard.
  rewrite mine_state_player_other by done.
  by destruct (mine_state_config st sender timestamp input) as (_ & -> & _).
Qed.

(** X13. After a successful [mine] of a principal at timestamp [t], the
    principal's next [mine], at timestamp [t'], succeeds exactly when its
    input proof verifies, [t + minMineInterval] fits in a [uint256] and
    [t'] has reached it; the bound is inclusive. *)
Theorem next_mine_succeeds_from_the_deadline
    st sender t input st1 t' input' :
  mine sender t input st = Ok tt st1 ->
  (exists st2, mine sender t' input' st1 = Ok tt st2) <->
  FHE.ext_proof_ok input' = true /\
  t + minMineInterval st < two256 /\
  t + minMineInterval st <= t'.
Proof.
  intros ->%mine_Ok. rewrite mine_unfold. unfold mine_guard.
  destruct (mine_state_player_sender st sender t input) as [total ->].
  destruct (mine_state_config st sender t input) as (_ & -> & _).
  cbn [exists_ lastMineTime].
  destruct (FHE.ext_proof_ok input'); [|split; [by intros [? ?] | by intros [? _]]].
  destruct (Z.ltb_spec (t + minMineInterval st) two256).
  - destruct (Z.leb_spec (t + minMineInterval st) t').
    + split; [done | by eauto].
    + split; [by intros [? ?] | intros (_ & _ & ?); lia].
  - split; [by intros [? ?] | intros (_ & ? & _); lia].
Qed.

(** X14. A successful [mine] of one principal leaves every other
    principal's record as it was, and with it the outcome of that other
    principal's own next [mine]: the rate limit is kept per principal. *)
Theorem mine_leaves_other_players_alone st sender t input st1 q :
  mine sender t input st = Ok tt st1 ->
  q ≠ sender ->
  player st1 q = player st q /\
  (forall t' input' e,
     mine q t' input' st1 = Revert e <-> mine q t' input' st = Revert e) /\
  (forall t' input',
     succeeds (mine q t' input') st1 = succeeds (mine q t' input') st).
Proof.
  intros ->%mine_Ok Hne. split; [by apply mine_state_player_other|].
  split.
  - intros t' input' e. rewrite !mine_unfold.
    rewrite mine_state_guard_other by done.
    destruct (mine_guard st q t' input'); [done|]. split; discriminate.
  - intros t' input'. rewrite !succeeds_mine.
    by rewrite mine_state_guard_other.
Qed.

(** ** Who holds a grant on a stored total *)

(** [owner_grants st]: every registered player, and the contract, hold a
    grant on the player's current total. *)
Lemma owner_grants_run cs :
  forall st, Inv st ->
    (forall b p, players st !! b = Some p ->
       (totalMined p, b) ∈ FHE.acl (fhe st) /\
       (totalMined p, this st) ∈ FHE.acl (fhe st)) ->
    forall b p, players (run st cs) !! b = Some p ->
      (totalMined p, b) ∈ FHE.acl (fhe (run st cs)) /\
      (totalMined p, this (run st cs)) ∈ FHE.acl (fhe (run st cs)).
Proof.
  induction cs as [|c cs IH]; intros st HI HG; [done|].
  rewrite run_cons. apply IH; [by apply Inv_step|].
  destruct (step_extends st c) as (_ & _ & Hacl).
  destruct (step_config st c) as (_ & _ & Hthis). rewrite Hthis.
  destruct c as [sender timestamp input|sender|sender a amount].
  - rewrite step_mine in *. destruct (mine_guard st sender timestamp input) eqn:Hguard.
    + done.
    + intros b p. destruct (decide (b = sender)) as [->|Hne].
      * intros Hp.
        assert (Hm : mine sender timestamp input st =
                     Ok tt (mine_state st sender timestamp input)).
        { by rewrite mine_unfold, Hguard. }
        apply mine_grants in Hm as (H1 & H2 & _).
        unfold player in H1, H2. rewrite Hp in H1, H2. cbn in H1, H2.
        by destruct (mine_state_config st sender timestamp input)
          as (_ & _ & <-).
      * rewrite mine_state_players_other by done. intros Hp.
        destruct (HG b p Hp). split; by apply Hacl.
  - intros b p. cbn [step] in *.
    destruct (calculateMyRank_same_ledger sender st) as (-> & _).
    intros Hp. destruct (HG b p Hp). split; by apply Hacl.
  - unfold step in *. by rewrite distributeReward_state in *.
Qed.

(** X17. In every reachable state each registered player holds a grant
    on the handle of its current total, and so does the contract: the
    grant made by the player's last [mine] is still there after the calls
    of other principals. *)
Theorem owner_keeps_grant_on_current_total st b :
  reachable st ->
  exists_ (player st b) = true ->
  (totalMined (player st b), b) ∈ FHE.acl (fhe st) /\
  (totalMined (player st b), this st) ∈ FHE.acl (fhe st).
Proof.
  intros (self & token & interval & cs & ->).
  pose proof (Inv_run cs _ (Inv_constructor self token interval)) as HI.
  intros Hex. apply exists_registry in Hex; [|done].
  apply (inv_registry _ HI) in Hex as [p Hp].
  unfold player. rewrite Hp. cbn [default from_option id].
  apply (owner_grants_run cs (constructor self token interval)); [|  |done].
  - apply Inv_constructor.
  - intros b' p' H. cbn in H. by rewrite lookup_empty in H.
Qed.

(** ** Rank queries *)

Lemma clear_total_same_ledger st st' a :
  Inv st -> same_ledger st st' -> clear_total st' a = clear_total st a.
Proof.
  intros HI (Hpl & _ & _ & _ & _ & _ & _ & Hp & _).
  unfold clear_total, player, FHE.value. rewrite Hpl.
  destruct (players st !! a) as [p|] eqn:Ha; cbn [default from_option id].
  - rewrite Hp; [done | by eapply inv_player_lt].
  - rewrite Hp; [done | by apply Inv_next_pos].
Qed.

Lemma others_above_same_ledger st st' q :
  Inv st -> same_ledger st st' -> others_above st' q = others_above st q.
Proof.
  intros HI Hs. unfold others_above.
  pose proof Hs as (_ & Haddrs & _). rewrite Haddrs.
  apply filter_ext_elem. intros x _.
  by rewrite !(clear_total_same_ledger st st') by done.
Qed.

(** X15. Rank queries do not disturb each other: in a reachable state,
    when a query of [calculateMyRank] by one principal is followed by the
    query of another (or of the same) principal, the second handle
    decrypts to what the handle of that query made in the first place
    would decrypt to, the rank of the state before both, and the handle
    of the first query still decrypts as it did. *)
Theorem rank_queries_are_independent st p h1 st1 q h2 st2 :
  reachable st ->
  calculateMyRank p st = Ok h1 st1 ->
  calculateMyRank q st1 = Ok h2 st2 ->
  decrypt st2 h2 =
    Some ((Z.of_nat (length (others_above st q)) + 1) mod 2 ^ 32) /\
  (forall h st', calculateMyRank q st = Ok h st' ->
     decrypt st2 h2 = decrypt st' h) /\
  decrypt st2 h1 = decrypt st1 h1.
Proof.
  intros HI%Inv_reachable Hr1 Hr2.
  pose proof (calculateMyRank_same_ledger p st) as Hs.
  unfold transact in Hs. rewrite Hr1 in Hs. cbn [fst] in Hs.
  pose proof (Inv_same_ledger st st1 HI Hs) as HI1.
  pose proof (calculateMyRank_decrypts st1 q h2 st2 HI1 Hr2) as Hd2.
  rewrite (others_above_same_ledger st st1 q HI Hs) in Hd2.
  split; [exact Hd2|]. split.
  - intros h st' Hr. rewrite Hd2.
    by rewrite (calculateMyRank_decrypts st q h st' HI Hr).
  - apply calculateMyRank_Ok in Hr1 as (_ & b1 & Hb1 & ->).
    apply calculateMyRank_Ok in Hr2 as (_ & b2 & Hb2 & ->).
    pose proof (rank_backend_frame (this st) (players st) (playerAddresses st)
                  p (fhe st)) as Hf1.
    rewrite Hb1 in Hf1. destruct Hf1 as (_ & Hlt1 & _).
    pose proof (rank_backend_frame (this (set_fhe b1 st))
                  (players (set_fhe b1 st)) (playerAddresses (set_fhe b1 st))
                  q (fhe (set_fhe b1 st))) as Hf2.
    rewrite Hb2 in Hf2. destruct Hf2 as (_ & _ & Hp2 & _).
    cbn [set_fhe fhe] in Hp2.
    unfold decrypt, FHE.decrypt. cbn [set_fhe fhe]. by apply Hp2.
Qed.

(** ** Cost of a rank query *)

Lemma comparisons_app l1 l2 :
  comparisons (l1 ++ l2) = comparisons l1 ++ comparisons l2.
Proof. apply filter_app. Qed.

Lemma rank_body_trace other my count b :
  exists evs,
    FHE.trace (rank_body_backend other my count b).2 = FHE.trace b ++ evs /\
    length (comparisons evs) = 1%nat /\ length evs = 5%nat.
Proof.
  destruct b as [pl n ac tr]. unfold rank_body_backend.
  cbv [FHE.gt FHE.asEuint32 FHE.select FHE.add FHE.produce
       FHE.plain FHE.next FHE.acl FHE.trace snd].
  eexists. split; [by rewrite <- !app_assoc | done].
Qed.

Lemma rank_loop_backend_trace pl sender my addrs :
  forall count b,
    exists evs,
      FHE.trace (rank_loop_backend pl sender my addrs count b).2
      = FHE.trace b ++ evs /\
      length (comparisons evs)
      = length (filter (fun x => x ≠ sender) addrs) /\
      length evs = (5 * length (filter (fun x => x ≠ sender) addrs))%nat.
Proof.
  induction addrs as [|other rest IH]; intros count b;
    cbn [rank_loop_backend].
  - exists []. by rewrite app_nil_r.
  - rewrite filter_cons. case_bool_decide as Hne.
    + destruct (rank_body_trace
                  (totalMined (default noPlayer (pl !! other))) my count b)
        as (evs1 & Ht1 & Hc1 & Hl1).
      destruct (rank_body_backend _ _ _ _) as [c' b1]. cbn [snd] in Ht1.
      destruct (IH c' b1) as (evs2 & Ht2 & Hc2 & Hl2).
      exists (evs1 ++ evs2). rewrite Ht2, Ht1, app_assoc.
      rewrite decide_True by done.
      rewrite comparisons_app, !length_app, Hc1, Hc2, Hl1, Hl2. cbn [length].
      split; [done|]. split; lia.
    + rewrite decide_False by (by intros ?). apply IH.
Qed.

Lemma length_filter_others (p : N) (l : list N) :
  NoDup l -> p ∈ l ->
  S (length (filter (fun x => x ≠ p) l)) = length l.
Proof.
  induction 1 as [|x l Hx Hnd IH]; [by inversion 1|].
  rewrite filter_cons. intros [->|Hin]%elem_of_cons.
  - rewrite decide_False by (by intros ?). cbn [length]. f_equal.
    f_equal. apply filter_all. intros y Hy ->. done.
  - rewrite decide_True by (by intros ->). cbn [length]. f_equal. by apply IH.
Qed.

(** X16. A successful [calculateMyRank] in a reachable state with [n]
    registered principals makes exactly [n - 1] homomorphic comparisons,
    one for every registered principal other than the caller, and [5 n]
    backend calls in all. *)
Theorem calculateMyRank_compares_with_every_other_player st p h st' :
  reachable st ->
  calculateMyRank p st = Ok h st' ->
  S (length (comparisons (call_trace st st'))) = length (playerAddresses st)
  /\ length (call_trace st st') = (5 * length (playerAddresses st))%nat.
Proof.
  intros HI%Inv_reachable (Hex & b' & Hb & ->)%calculateMyRank_Ok.
  apply exists_registry in Hex; [|done].
  pose proof (length_filter_others p _ (inv_nodup st HI) Hex) as Hlen.
  unfold call_trace. cbn [set_fhe fhe].
  unfold rank_backend in Hb.
  destruct (fhe st) as [pl n ac tr] eqn:Hfhe.
  cbv [FHE.asEuint32 FHE.produce FHE.plain FHE.next FHE.acl FHE.trace] in Hb.
  match type of Hb with context [rank_loop_backend ?a ?b ?c ?d ?e ?f] =>
    destruct (rank_loop_backend_trace a b c d e f) as (evs & Ht & Hc & Hl);
    destruct (rank_loop_backend a b c d e f) as [c' [pl2 n2 ac2 tr2]]
  end.
  cbv [FHE.add FHE.allow FHE.allowThis FHE.produce FHE.plain FHE.next
       FHE.acl FHE.trace] in Hb.
  injection Hb as <- <-. cbn [snd FHE.trace] in *. rewrite Ht.
  repeat (rewrite <- app_assoc; cbn [app]).
  rewrite drop_app_length.
  change (FHE.EvTrivial 0 n :: evs ++ ?l)
    with ([FHE.EvTrivial 0 n] ++ evs ++ l).
  rewrite !comparisons_app, !length_app, Hc, Hl.
  set (k := length (filter _ (playerAddresses st))) in *.
  change (comparisons [FHE.EvTrivial 0 n]) with (@nil FHE.Event).
  change (comparisons [FHE.EvTrivial 1 n2; FHE.EvAdd c' n2 (N.succ n2);
                       FHE.EvAllowThis (N.succ n2); FHE.EvAllow (N.succ n2) p])
    with (@nil FHE.Event).
  cbn [length]. split; lia.
Qed.

(** ** Mining and the rank *)

Lemma length_filter_mono {A} (P Q : A -> Prop)
    `{!forall x, Decision (P x)} `{!forall x, Decision (Q x)} (l : list A) :
  (forall x, x ∈ l -> P x -> Q x) ->
  (length (filter P l) <= length (filter Q l))%nat.
Proof.
  intros Himp.
  assert (filter P l = filter P (filter Q l)) as ->.
  { rewrite list_filter_filter. apply filter_ext_elem. intros x Hx.
    split; [|tauto]. intros HP. split; [done | by apply Himp]. }
  apply length_filter.
Qed.

(** X18. Contributing never worsens one's own rank, wraparound aside: in
    a reachable state with fewer than 2^32 registered principals, take
    the rank returned to a principal before and the rank returned to it
    after a successful [mine] of its own that does not take its total
    past 2^32; the second is at most the first. *)
Theorem mining_never_worsens_own_rank st p t input st1 h sa h1 sb :
  reachable st ->
  Z.of_nat (length (playerAddresses st)) < 2 ^ 32 ->
  mine p t input st = Ok tt st1 ->
  clear_total st p + amount_of input < 2 ^ 32 ->
  calculateMyRank p st = Ok h sa ->
  calculateMyRank p st1 = Ok h1 sb ->
  exists r r1,
    decrypt sa h = Some r /\ decrypt sb h1 = Some r1 /\ r1 <= r.
Proof.
  intros HR Hsmall Hmine Hfit Hr Hr1.
  pose proof (Inv_reachable st HR) as HI.
  assert (Hstep : st1 = step st (Mine p t input)).
  { unfold step, transact. by rewrite Hmine. }
  apply mine_Ok in Hmine.
  assert (HR1 : reachable st1) by (rewrite Hstep; by apply reachable_step).
  destruct (calculateMyRank_value st p h sa HR Hsmall Hr) as [Hin Hd].
  assert (Hex : exists_ (player st p) = true) by (by apply exists_registry).
  assert (Haddrs : playerAddresses st1 = playerAddresses st).
  { rewrite Hmine, mine_state_registry by done. unfold register.
    by rewrite bool_decide_true. }
  destruct (calculateMyRank_value st1 p h1 sb HR1) as [Hin1 Hd1];
    [by rewrite Haddrs | done |].
  eexists _, _. do 2 (split; [done|]).
  assert (Hle : (length (others_above st1 p)
                 <= length (others_above st p))%nat).
  { unfold others_above. rewrite Haddrs. apply length_filter_mono.
    intros x _ [Hne Hlt]. split; [done|].
    rewrite Hmine in Hlt.
    rewrite clear_total_mine_sender, clear_total_mine_other in Hlt by done.
    pose proof (clear_total_range st p HI) as [Hp0 _].
    pose proof (wrap32_range (FHE.ext_value input)) as [Ha0 _].
    fold (amount_of input) in Ha0.
    rewrite wrap32_small in Hlt by (unfold two32; lia). lia. }
  lia.
Qed.

(** ** Instances of the further properties *)

Lemma alice_total_in_the_scenario :
  exists h,
    getPlayerTotalMined alice (run s0 calls) = Ok h (run s0 calls) /\
    h ≠ 0%N /\
    decrypt (run s0 calls) h =
    Some (wrap32 (sumZ (entries_of alice (contributions s0 calls)))).
Proof.
  apply (proj2 (player_total_is_sum_of_own_contributions
                  contract 0%N 10 calls alice)).
  vm_compute. discriminate.
Defined.

Lemma alice_still_exists_after_later_calls :
  playerExists alice (run s0 ([Mine alice 0 (input 10)] ++ calls)) =
  Ok true (run s0 ([Mine alice 0 (input 10)] ++ calls)).
Proof.
  apply (proj2 (playerExists_iff_has_mined contract 0%N 10
                  [Mine alice 0 (input 10)] alice) calls).
  vm_compute. reflexivity.
Defined.

Lemma reward_in_the_scenario_has_no_token :
  distributeReward alice 7 (run s0 calls) = Revert RewardTokenNotSet.
Proof.
  apply (proj1 (proj2 (distributeReward_checks_player_then_token
                         contract 0%N 10 calls alice 7))).
  - vm_compute. discriminate.
  - reflexivity.
Defined.

Lemma stranger_has_no_rank_in_the_scenario :
  calculateMyRank 3%N (run s0 calls) = Revert PlayerDoesNotExist.
Proof.
  apply (proj2 (proj1 (calculateMyRank_fails_only_for_strangers
                         contract 0%N 10 calls 3%N))).
  vm_compute. reflexivity.
Defined.

Lemma tied_players_share_a_rank :
  decrypt (step Tie.tied (CalculateMyRank alice)) 17%N =
  decrypt (step Tie.tied (CalculateMyRank bob)) 17%N.
Proof.
  apply (equal_totals_get_equal_ranks Tie.tied alice bob).
  - exists contract, 0%N, 10, Tie.calls. vm_compute. reflexivity.
  - vm_compute. reflexivity.
  - vm_compute. reflexivity.
  - vm_compute. reflexivity.
Defined.

Lemma bob_ranks_before_alice :
  exists rp rq,
    decrypt (step s4 (CalculateMyRank bob)) 20%N = Some rp /\
    decrypt ranked 20%N = Some rq /\
    rp < rq.
Proof.
  apply (greater_total_gets_smaller_rank s4 bob alice).
  - exists contract, 0%N, 10, calls. vm_compute. reflexivity.
  - vm_compute. reflexivity.
  - vm_compute. reflexivity.
  - vm_compute. reflexivity.
  - vm_compute. reflexivity.
Defined.

Lemma rank_bounds_in_the_scenario :
  exists r,
    decrypt (step s4 (CalculateMyRank bob)) 20%N = Some r /\
    1 <= r <= Z.of_nat (length (playerAddresses s4)) /\
    (r = 1 <->
       forall q, q ∈ playerAddresses s4 -> q ≠ bob ->
                 clear_total s4 q <= clear_total s4 bob).
Proof.
  apply (rank_is_between_one_and_player_count s4 bob).
  - exists contract, 0%N, 10, calls. vm_compute. reflexivity.
  - vm_compute. reflexivity.
  - vm_compute. reflexivity.
Defined.

Lemma alice_keeps_index_zero :
  playerAddresses s1 `prefix_of` playerAddresses (run s1 calls) /\
  (length (playerAddresses s1) <= length (playerAddresses (run s1 calls)))%nat
  /\ getPlayerAddress 0 (run s1 calls) = Ok alice (run s1 calls).
Proof.
  apply (registry_is_append_only s1 calls 0 alice).
  - lia.
  - vm_compute. reflexivity.
Defined.

Lemma first_handles_still_decrypt :
  FHE.acl (fhe s1) ⊆ FHE.acl (fhe (run s1 calls)) /\
  decrypt (run s1 calls) (totalMinedAmount s1)
  = decrypt s1 (totalMinedAmount s1) /\
  (forall a, a ∈ playerAddresses s1 ->
     decrypt (run s1 calls) (totalMined (player s1 a)) =
     decrypt s1 (totalMined (player s1 a))).
Proof.
  apply (grants_and_old_handles_persist s1 calls).
  exists contract, 0%N, 10, [Mine alice 0 (input 10)]. vm_compute. reflexivity.
Defined.

Lemma alice_may_mine_again_at_ten :
  (exists st2, mine alice 10 (input 5) s1 = Ok tt st2) <->
  FHE.ext_proof_ok (input 5) = true /\
  0 + minMineInterval s0 < two256 /\
  0 + minMineInterval s0 <= 10.
Proof.
  apply (next_mine_succeeds_from_the_deadline s0 alice 0 (input 10) s1).
  vm_compute. reflexivity.
Defined.

Lemma bob_mining_leaves_alice_alone :
  player s4 alice = player s3 alice /\
  (forall t' input' e,
     mine alice t' input' s4 = Revert e <->
     mine alice t' input' s3 = Revert e) /\
  (forall t' input',
     succeeds (mine alice t' input') s4 = succeeds (mine alice t' input') s3).
Proof.
  apply (mine_leaves_other_players_alone s3 bob 12 (input 20) s4 alice).
  - vm_compute. reflexivity.
  - vm_compute. discriminate.
Defined.

Lemma bob_ranked_after_alice :
  decrypt (step ranked (CalculateMyRank bob)) 28%N =
    Some ((Z.of_nat (length (others_above s4 bob)) + 1) mod 2 ^ 32) /\
  (forall h st', calculateMyRank bob s4 = Ok h st' ->
     decrypt (step ranked (CalculateMyRank bob)) 28%N = decrypt st' h) /\
  decrypt (step ranked (CalculateMyRank bob)) 20%N = decrypt ranked 20%N.
Proof.
  apply (rank_queries_are_independent s4 alice 20%N ranked bob).
  - exists contract, 0%N, 10, calls. vm_compute. reflexivity.
  - vm_compute. reflexivity.
  - vm_compute. reflexivity.
Defined.

Lemma one_comparison_with_two_players :
  S (length (comparisons (call_trace s4 ranked))) = length (playerAddresses s4)
  /\ length (call_trace s4 ranked) = (5 * length (playerAddresses s4))%nat.
Proof.
  apply (calculateMyRank_compares_with_every_other_player s4 alice 20%N ranked).
  - exists contract, 0%N, 10, calls. vm_compute. reflexivity.
  - vm_compute. reflexivity.
Defined.

Lemma alice_holds_her_grant_after_bob_mined :
  (totalMined (player s4 alice), alice) ∈ FHE.acl (fhe s4) /\
  (totalMined (player s4 alice), this s4) ∈ FHE.acl (fhe s4).
Proof.
  apply (owner_keeps_grant_on_current_total s4 alice).
  - exists contract, 0%N, 10, calls. vm_compute. reflexivity.
  - vm_compute. reflexivity.
Defined.

Lemma alice_mining_more_keeps_or_improves_rank :
  exists r r1,
    decrypt ranked 20%N = Some r /\
    decrypt (step (step s4 (Mine alice 30 (input 7))) (CalculateMyRank alice))
      23%N = Some r1 /\
    r1 <= r.
Proof.
  apply (mining_never_worsens_own_rank s4 alice 30 (input 7)
           (step s4 (Mine alice 30 (input 7)))).
  - exists contract, 0%N, 10, calls. vm_compute. reflexivity.
  - vm_compute. reflexivity.
  - vm_compute. reflexivity.
  - vm_compute. reflexivity.
  - vm_compute. reflexivity.
  - vm_compute. reflexivity.
Defined.
